(** * Mesh adaptation operators and the SimpleSaddle test system

    A shallow embedding of

    - [MeshOperatorSequence], [ThresholdRefiner] and [ThresholdDerefiner]
      (mesh_operators.cpp), and
    - the [SimpleSaddle] fixture of the constrained-solver unit test,

    with the properties of their control flow, marking rule and closed-form
    reference solution. *)

From Stdlib Require Import ZArith QArith Lia Lqa PrimFloat Uint63 SpecFloat FloatOps.
From stdpp Require Import base option list sorting.

Local Open Scope Z_scope.

(** ** C++ arrays

    [Array<T>::operator[]] and [Vector::operator()] are defined on
    [0 <= i < Size()]; any other index is undefined behaviour, which the
    embedding reports as [None]. *)

Definition Array_at {A : Type} (a : list A) (i : Z) : option A :=
  if decide (0 <= i) then a !! Z.to_nat i else None.

Definition Array_Size {A : Type} (a : list A) : Z := Z.of_nat (length a).

Lemma Array_at_Some {A : Type} (a : list A) (i : Z) :
  0 <= i < Array_Size a -> is_Some (Array_at a i).
Proof.
  intros [Hlo Hhi]. unfold Array_at, Array_Size in *.
  rewrite decide_True by done.
  apply lookup_lt_is_Some. lia.
Qed.

Lemma Array_at_Some_range {A : Type} (a : list A) (i : Z) (x : A) :
  Array_at a i = Some x -> 0 <= i < Array_Size a.
Proof.
  unfold Array_at, Array_Size. destruct (decide (0 <= i)) as [Hi|Hi]; [|done].
  intros Hx. apply lookup_lt_Some in Hx. lia.
Qed.

(** ** Action and info codes of [MeshOperator]

    The enumerators [NONE], [CONTINUE], [STOP], [REPEAT], [MASK_ACTION] and
    [REFINED], [DEREFINED], [REBALANCED], [MASK_INFO] are declared in
    mesh_operators.hpp, which is not among the sources; their values are
    parameters of the development. *)

Class ActionCodes : Type := {
  NONE : Z;
  CONTINUE : Z;
  STOP : Z;
  REPEAT : Z;
  MASK_ACTION : Z;
  REFINED : Z;
  DEREFINED : Z;
  REBALANCED : Z;
  MASK_INFO : Z
}.

(** The four labels of the [switch] in [MeshOperatorSequence::ApplyImpl]
    are pairwise distinct (C++ rejects a [switch] with a repeated label). *)
Definition case_labels_distinct (codes : ActionCodes) : Prop :=
  NoDup [NONE; CONTINUE; STOP; REPEAT].

(** The values the library gives the enumerators: the action occupies the two
    low bits, the info flags the bits above them. *)
Definition mfem_codes : ActionCodes := {|
  NONE := 0;
  CONTINUE := 1;
  STOP := 2;
  REPEAT := 3;
  MASK_ACTION := 3;
  REFINED := 4 * 1;
  DEREFINED := 4 * 2;
  REBALANCED := 4 * 3;
  MASK_INFO := Z.lnot 3
|}.

Lemma mfem_codes_distinct : case_labels_distinct mfem_codes.
Proof.
  unfold case_labels_distinct. apply (bool_decide_unpack _). by vm_compute.
Defined.

(** ** MeshOperatorSequence *)

Module Sequence.
Section WithOperators.

Context {codes : ActionCodes}.

(** The mesh, and the private state of a child operator. A child is any
    [MeshOperator]: its [ApplyImpl] reads and updates its own state and
    the mesh, and returns the action/info word (the local [mod] of the source is
    written [mod_]). *)
Context {Mesh OpState : Type}.

Record MeshOperator : Type := {
  op_state : OpState;
  op_impl : OpState -> Mesh -> Z * OpState * Mesh
}.

(** The virtual call [op->ApplyImpl(mesh)]. *)
Definition child_ApplyImpl (op : MeshOperator) (mesh : Mesh)
  : Z * MeshOperator * Mesh :=
  let '(mod_, st, mesh') := op_impl op (op_state op) mesh in
  (mod_, {| op_state := st; op_impl := op_impl op |}, mesh').

Record MeshOperatorSequence : Type := {
  sequence : list MeshOperator;
  step : Z
}.

Definition Size (seq : MeshOperatorSequence) : Z := Array_Size (sequence seq).

(** The sequence after the child at [cur] has run and become [op']. *)
Definition advanced (seq : MeshOperatorSequence) (cur : Z) (op' : MeshOperator)
  : MeshOperatorSequence :=
  {| sequence := <[Z.to_nat cur := op']> (sequence seq); step := cur |}.

Definition with_step (seq : MeshOperatorSequence) (s : Z) : MeshOperatorSequence :=
  {| sequence := sequence seq; step := s |}.

(** The body from the label [next_step] on. [%] on [int] truncates
    towards zero ([Z.rem]). Every [goto next_step] consumes one unit of
    [fuel]. *)
Fixpoint next_step (fuel : nat) (seq : MeshOperatorSequence) (mesh : Mesh)
  : option (Z * MeshOperatorSequence * Mesh) :=
  match fuel with
  | O => None
  | S fuel' =>
      let cur := Z.rem (step seq + 1) (Size seq) in
      let last := cur =? Size seq - 1 in
      op ← Array_at (sequence seq) cur;
      let '(mod_, op', mesh') := child_ApplyImpl op mesh in
      let seq' := advanced seq cur op' in
      let act := Z.land mod_ MASK_ACTION in
      if act =? NONE then
        if last then Some (NONE, seq', mesh') else next_step fuel' seq' mesh'
      else if act =? CONTINUE then
        Some (if last then mod_ else Z.lor REPEAT (Z.land mod_ MASK_INFO), seq', mesh')
      else if act =? STOP then
        Some (STOP, seq', mesh')
      else if act =? REPEAT then
        Some (mod_, with_step seq' (cur - 1), mesh')
      else
        Some (NONE, seq', mesh')
  end.

(** [MeshOperatorSequence::ApplyImpl]. A call visits each child at most
    once, so [sequence.Size()] units of fuel are enough. *)
Definition ApplyImpl (seq : MeshOperatorSequence) (mesh : Mesh)
  : option (Z * MeshOperatorSequence * Mesh) :=
  if Size seq =? 0 then Some (NONE, seq, mesh)
  else next_step (length (sequence seq)) seq mesh.

(** [MeshOperatorSequence::Reset], for a child reset function [reset]. *)
Definition Reset (reset : MeshOperator -> MeshOperator) (seq : MeshOperatorSequence)
  : MeshOperatorSequence :=
  {| sequence := reset <$> sequence seq; step := 0 |}.

(** Children from the next cursor position to the end of the list. *)
Definition remaining (seq : MeshOperatorSequence) : nat :=
  Z.to_nat (Size seq - Z.rem (step seq + 1) (Size seq)).

Lemma Size_advanced seq cur op' : Size (advanced seq cur op') = Size seq.
Proof. unfold Size, advanced, Array_Size. cbn. by rewrite length_insert. Qed.

Lemma cursor_range seq :
  0 < Size seq -> -1 <= step seq ->
  0 <= Z.rem (step seq + 1) (Size seq) < Size seq.
Proof. intros Hs Hc. apply Z.rem_bound_pos; lia. Qed.

Lemma remaining_pos seq :
  0 < Size seq -> -1 <= step seq -> (0 < remaining seq)%nat.
Proof. intros Hs Hc. unfold remaining. pose proof (cursor_range seq Hs Hc). lia. Qed.

Lemma remaining_advanced seq op' :
  0 < Size seq -> -1 <= step seq ->
  let cur := Z.rem (step seq + 1) (Size seq) in
  cur <> Size seq - 1 ->
  remaining (advanced seq cur op') = (remaining seq - 1)%nat.
Proof.
  intros Hs Hc cur Hlast. pose proof (cursor_range seq Hs Hc) as Hr.
  unfold remaining. rewrite Size_advanced. cbn [step advanced].
  fold cur in Hr |- *. rewrite Z.rem_small by lia. lia.
Qed.

(** Fuel beyond [remaining seq] is never used. *)
Lemma next_step_fuel (f1 f2 : nat) seq mesh :
  0 < Size seq -> -1 <= step seq ->
  (remaining seq <= f1)%nat -> (remaining seq <= f2)%nat ->
  next_step f1 seq mesh = next_step f2 seq mesh.
Proof.
  revert f2 seq mesh.
  induction f1 as [|f1 IH]; intros f2 seq mesh Hs Hc H1 H2.
  { pose proof (remaining_pos seq Hs Hc). lia. }
  destruct f2 as [|f2].
  { pose proof (remaining_pos seq Hs Hc). lia. }
  cbn [next_step].
  destruct (Array_at (sequence seq) _) as [op|]; [|done]. cbn.
  destruct (child_ApplyImpl op mesh) as [[mod_ op'] mesh'].
  destruct (Z.land mod_ MASK_ACTION =? NONE); [|done].
  destruct (Z.eqb_spec (Z.rem (step seq + 1) (Size seq)) (Size seq - 1)) as [|Hnl];
    [done|].
  pose proof (cursor_range seq Hs Hc) as Hr.
  pose proof (remaining_advanced seq op' Hs Hc Hnl) as Hrem.
  apply IH.
  - by rewrite Size_advanced.
  - cbn [advanced step]. lia.
  - lia.
  - lia.
Qed.

(** With enough fuel the loop returns. *)
Lemma next_step_total (fuel : nat) seq mesh :
  0 < Size seq -> -1 <= step seq -> (remaining seq <= fuel)%nat ->
  is_Some (next_step fuel seq mesh).
Proof.
  revert seq mesh.
  induction fuel as [|fuel IH]; intros seq mesh Hs Hc Hf.
  { pose proof (remaining_pos seq Hs Hc). lia. }
  cbn [next_step].
  pose proof (cursor_range seq Hs Hc) as Hr.
  destruct (Array_at_Some (sequence seq) _ Hr) as [op ->]. cbn.
  destruct (child_ApplyImpl op mesh) as [[mod_ op'] mesh'].
  destruct (Z.land mod_ MASK_ACTION =? NONE).
  - destruct (Z.eqb_spec (Z.rem (step seq + 1) (Size seq)) (Size seq - 1)) as [|Hnl];
      [done|].
    pose proof (remaining_advanced seq op' Hs Hc Hnl) as Hrem.
    apply IH.
    + by rewrite Size_advanced.
    + cbn [advanced step]. lia.
    + lia.
  - repeat case_match; done.
Qed.

Lemma remaining_le_Size seq :
  0 < Size seq -> -1 <= step seq -> (remaining seq <= length (sequence seq))%nat.
Proof.
  intros Hs Hc. pose proof (cursor_range seq Hs Hc).
  unfold remaining. unfold Size, Array_Size in *. lia.
Qed.

Lemma ApplyImpl_nonempty seq mesh :
  0 < Size seq -> ApplyImpl seq mesh = next_step (length (sequence seq)) seq mesh.
Proof.
  intros Hs. unfold ApplyImpl.
  destruct (Z.eqb_spec (Size seq) 0); [lia|done].
Qed.

Lemma Size_pos seq : sequence seq <> [] -> 0 < Size seq.
Proof. unfold Size, Array_Size. destruct (sequence seq); [done|]. cbn. lia. Qed.

Lemma labels_apart :
  case_labels_distinct codes ->
  NONE <> CONTINUE /\ NONE <> STOP /\ NONE <> REPEAT /\
  CONTINUE <> STOP /\ CONTINUE <> REPEAT /\ STOP <> REPEAT.
Proof.
  unfold case_labels_distinct.
  rewrite !NoDup_cons, !not_elem_of_cons. intuition.
Qed.

(** The cursor stays in [-1 .. Size - 1], and the list keeps its length. *)
Lemma ApplyImpl_step_range seq mesh r seq' mesh' :
  0 < Size seq -> -1 <= step seq ->
  ApplyImpl seq mesh = Some (r, seq', mesh') ->
  Size seq' = Size seq /\ -1 <= step seq' < Size seq'.
Proof.
  intros Hs Hc. rewrite ApplyImpl_nonempty by done.
  generalize (length (sequence seq)) as fuel. intros fuel.
  revert seq mesh Hs Hc.
  induction fuel as [|fuel IH]; intros seq mesh Hs Hc; [done|].
  cbn [next_step]. pose proof (cursor_range seq Hs Hc) as Hr.
  destruct (Array_at (sequence seq) _) as [op|]; [|done]. cbn.
  destruct (child_ApplyImpl op mesh) as [[mod_ op'] mesh1].
  set (cur := Z.rem (step seq + 1) (Size seq)) in *.
  assert (Size (advanced seq cur op') = Size seq) as Hsz by apply Size_advanced.
  destruct (Z.land mod_ MASK_ACTION =? NONE).
  - destruct (cur =? Size seq - 1).
    + intros [= <- <- <-]. rewrite Hsz. cbn. lia.
    + intros Hn. apply IH in Hn as [Hn1 Hn2]; [|rewrite Hsz; lia|cbn; lia]. lia.
  - repeat case_match; intros [= <- <- <-];
      unfold with_step, Size in *; cbn in *; lia.
Qed.

(** C9. On an empty sequence [ApplyImpl] returns [NONE]; no child is applied,
    and the mesh, the cursor and the (empty) list are those it was given. *)
Theorem ApplyImpl_empty (cursor : Z) (mesh : Mesh) :
  ApplyImpl {| sequence := []; step := cursor |} mesh
  = Some (NONE, {| sequence := []; step := cursor |}, mesh).
Proof. reflexivity. Qed.

(** One turn of the loop, for a child found at the advanced cursor. *)
Lemma next_step_unfold (fuel : nat) seq mesh op :
  let cur := Z.rem (step seq + 1) (Size seq) in
  Array_at (sequence seq) cur = Some op ->
  next_step (S fuel) seq mesh =
    let '(mod_, op', mesh') := child_ApplyImpl op mesh in
    let seq' := advanced seq cur op' in
    let act := Z.land mod_ MASK_ACTION in
    if act =? NONE then
      if cur =? Size seq - 1 then Some (NONE, seq', mesh') else next_step fuel seq' mesh'
    else if act =? CONTINUE then
      Some (if cur =? Size seq - 1 then mod_ else Z.lor REPEAT (Z.land mod_ MASK_INFO),
            seq', mesh')
    else if act =? STOP then Some (STOP, seq', mesh')
    else if act =? REPEAT then Some (mod_, with_step seq' (cur - 1), mesh')
    else Some (NONE, seq', mesh').
Proof.
  intros cur Hop. cbn [next_step]. fold cur. rewrite Hop. cbn.
  by destruct (child_ApplyImpl op mesh) as [[mod_ op'] mesh'].
Qed.

(** C1. On a non-empty sequence whose cursor is in its range (from [-1],
    the initial value, on), [ApplyImpl] returns; it advances the cursor to
    [(step + 1) mod Size], applies the child there and dispatches on the
    child's action bits: [NONE] at the last position gives [NONE], [NONE]
    earlier goes on from the advanced sequence within the same call;
    [CONTINUE] gives the child's word at the last position and
    [REPEAT | (mod & MASK_INFO)] earlier; [STOP] gives [STOP]; [REPEAT] gives
    the child's word with the cursor moved back by one. *)
Theorem ApplyImpl_dispatch (seq : MeshOperatorSequence) (mesh : Mesh) :
  case_labels_distinct codes ->
  sequence seq <> [] ->
  -1 <= step seq ->
  let cur := (step seq + 1) `mod` Size seq in
  let last := cur = Size seq - 1 in
  is_Some (ApplyImpl seq mesh) /\
  exists op, Array_at (sequence seq) cur = Some op /\
    let '(mod_, op', mesh') := child_ApplyImpl op mesh in
    let seq' := advanced seq cur op' in
    let act := Z.land mod_ MASK_ACTION in
    (act = NONE -> last -> ApplyImpl seq mesh = Some (NONE, seq', mesh')) /\
    (act = NONE -> ~ last -> ApplyImpl seq mesh = ApplyImpl seq' mesh') /\
    (act = CONTINUE -> last -> ApplyImpl seq mesh = Some (mod_, seq', mesh')) /\
    (act = CONTINUE -> ~ last ->
       ApplyImpl seq mesh = Some (Z.lor REPEAT (Z.land mod_ MASK_INFO), seq', mesh')) /\
    (act = STOP -> ApplyImpl seq mesh = Some (STOP, seq', mesh')) /\
    (act = REPEAT -> ApplyImpl seq mesh = Some (mod_, with_step seq' (cur - 1), mesh')).
Proof.
  intros Hd Hne Hc cur last.
  pose proof (Size_pos seq Hne) as Hs.
  pose proof (cursor_range seq Hs Hc) as Hr.
  assert (cur = Z.rem (step seq + 1) (Size seq)) as Hcur
    by (unfold cur; symmetry; apply Z.rem_mod_nonneg; lia).
  split.
  { rewrite ApplyImpl_nonempty by done.
    apply next_step_total; auto using remaining_le_Size. }
  rewrite <- Hcur in Hr.
  destruct (Array_at_Some (sequence seq) cur Hr) as [op Hop].
  exists op. split; [done|].
  rewrite ApplyImpl_nonempty by done.
  destruct (length (sequence seq)) as [|fuel] eqn:Hlen.
  { unfold Size, Array_Size in Hs. lia. }
  rewrite Hcur in Hop. rewrite (next_step_unfold fuel seq mesh op Hop).
  rewrite <- Hcur.
  destruct (child_ApplyImpl op mesh) as [[mod_ op'] mesh'].
  destruct (labels_apart Hd) as (N1 & N2 & N3 & N4 & N5 & N6).
  cbv zeta. unfold last.
  repeat split.
  - intros -> Hl. rewrite Z.eqb_refl. by rewrite (proj2 (Z.eqb_eq _ _) Hl).
  - intros -> Hl. rewrite Z.eqb_refl. rewrite (proj2 (Z.eqb_neq _ _) Hl).
    pose proof (remaining_advanced seq op' Hs Hc) as Hrem.
    cbv zeta in Hrem. rewrite <- Hcur in Hrem. specialize (Hrem Hl).
    pose proof (remaining_le_Size seq Hs Hc) as Hle.
    assert (0 < Size (advanced seq cur op')) as Hs' by (by rewrite Size_advanced).
    rewrite (ApplyImpl_nonempty (advanced seq cur op')) by done.
    apply next_step_fuel; try done.
    + cbn. lia.
    + lia.
    + cbn [advanced sequence]. rewrite length_insert. lia.
  - intros -> Hl. rewrite (proj2 (Z.eqb_neq _ _) (not_eq_sym N1)), Z.eqb_refl.
    by rewrite (proj2 (Z.eqb_eq _ _) Hl).
  - intros -> Hl. rewrite (proj2 (Z.eqb_neq _ _) (not_eq_sym N1)), Z.eqb_refl.
    by rewrite (proj2 (Z.eqb_neq _ _) Hl).
  - intros ->. rewrite (proj2 (Z.eqb_neq _ _) (not_eq_sym N2)).
    rewrite (proj2 (Z.eqb_neq _ _) (not_eq_sym N4)). by rewrite Z.eqb_refl.
  - intros ->. rewrite (proj2 (Z.eqb_neq _ _) (not_eq_sym N3)).
    rewrite (proj2 (Z.eqb_neq _ _) (not_eq_sym N5)).
    rewrite (proj2 (Z.eqb_neq _ _) (not_eq_sym N6)). by rewrite Z.eqb_refl.
Qed.

(** *** Further properties of the sequence *)

(** A child that reports [NONE] whatever its state and the mesh. *)
Definition quiescent (op : MeshOperator) : Prop :=
  forall (st : OpState) (mesh : Mesh),
    Z.land (op_impl op st mesh).1.1 MASK_ACTION = NONE.

Lemma quiescent_child op mesh :
  quiescent op ->
  Z.land (child_ApplyImpl op mesh).1.1 MASK_ACTION = NONE /\
  quiescent (child_ApplyImpl op mesh).1.2.
Proof.
  intros Hq. unfold child_ApplyImpl.
  pose proof (Hq (op_state op) mesh) as Hnone.
  destruct (op_impl op (op_state op) mesh) as [[mod_ st] mesh']. cbn in *.
  split; [done|]. intros st' mesh''. apply Hq.
Qed.

(** Children before the advanced cursor are not applied: a call leaves
    them as they are. *)
Lemma next_step_untouched (fuel : nat) seq mesh r seq' mesh' (i : nat) :
  0 < Size seq -> -1 <= step seq ->
  next_step fuel seq mesh = Some (r, seq', mesh') ->
  Z.of_nat i < Z.rem (step seq + 1) (Size seq) ->
  sequence seq' !! i = sequence seq !! i.
Proof.
  revert seq mesh.
  induction fuel as [|fuel IH]; intros seq mesh Hs Hc; [done|].
  cbn [next_step]. pose proof (cursor_range seq Hs Hc) as Hr.
  destruct (Array_at (sequence seq) _) as [op|]; [|done]. cbn.
  destruct (child_ApplyImpl op mesh) as [[mod_ op'] mesh1].
  set (cur := Z.rem (step seq + 1) (Size seq)) in *.
  assert (forall k, Z.of_nat i < cur ->
            sequence (advanced seq cur k) !! i = sequence seq !! i) as Hadv.
  { intros k Hi. cbn. apply list_lookup_insert_ne. lia. }
  destruct (Z.land mod_ MASK_ACTION =? NONE).
  - destruct (Z.eqb_spec cur (Size seq - 1)) as [Hl|Hl].
    + intros [= <- <- <-] Hi. by apply Hadv.
    + intros Hn Hi. rewrite <- (Hadv op' Hi).
      apply (IH (advanced seq cur op') mesh1);
        [by rewrite Size_advanced|cbn; lia|done|].
      rewrite Size_advanced. cbn [step advanced]. rewrite Z.rem_small by lia. lia.
  - repeat case_match; intros [= <- <- <-] Hi; by apply Hadv.
Qed.

Lemma next_step_quiescent (fuel : nat) seq mesh :
  Forall quiescent (sequence seq) ->
  0 < Size seq -> -1 <= step seq -> (remaining seq <= fuel)%nat ->
  exists seq' mesh',
    next_step fuel seq mesh = Some (NONE, seq', mesh') /\
    step seq' = Size seq - 1 /\
    Size seq' = Size seq /\
    Forall quiescent (sequence seq').
Proof.
  revert seq mesh.
  induction fuel as [|fuel IH]; intros seq mesh Hq Hs Hc Hf.
  { pose proof (remaining_pos seq Hs Hc). lia. }
  cbn [next_step]. pose proof (cursor_range seq Hs Hc) as Hr.
  destruct (Array_at (sequence seq) _) as [op|] eqn:Hop.
  2: { destruct (Array_at_Some (sequence seq) _ Hr) as [? Hsome]. congruence. }
  cbn.
  assert (quiescent op) as Hqop.
  { unfold Array_at in Hop. destruct (decide _); [|done].
    by apply (Forall_lookup_1 _ _ _ _ Hq Hop). }
  destruct (quiescent_child op mesh Hqop) as [Hnone Hq'].
  destruct (child_ApplyImpl op mesh) as [[mod_ op'] mesh1]. cbn in Hnone, Hq'.
  rewrite Hnone, Z.eqb_refl.
  set (cur := Z.rem (step seq + 1) (Size seq)) in *.
  assert (Forall quiescent (sequence (advanced seq cur op'))) as Hqa
    by (cbn; by apply Forall_insert).
  destruct (Z.eqb_spec cur (Size seq - 1)) as [Hl|Hl].
  - eexists _, _. split; [reflexivity|]. rewrite Size_advanced. by cbn.
  - pose proof (remaining_advanced seq op' Hs Hc Hl) as Hrem.
    destruct (IH (advanced seq cur op') mesh1 Hqa) as (seq' & mesh' & Hrun & H1 & H2 & H3).
    + by rewrite Size_advanced.
    + cbn. lia.
    + fold cur in Hrem. lia.
    + rewrite Size_advanced in H1, H2. by exists seq', mesh'.
Qed.

(** X1. A call on a non-empty sequence whose cursor is in [-1 .. Size - 1]
    returns, keeps the number of children and leaves the cursor in that
    range. *)
Theorem ApplyImpl_cursor_invariant (seq : MeshOperatorSequence) (mesh : Mesh) :
  sequence seq <> [] ->
  -1 <= step seq < Size seq ->
  exists r seq' mesh',
    ApplyImpl seq mesh = Some (r, seq', mesh') /\
    length (sequence seq') = length (sequence seq) /\
    -1 <= step seq' < Size seq'.
Proof.
  intros Hne Hc. pose proof (Size_pos seq Hne) as Hs.
  destruct (next_step_total (length (sequence seq)) seq mesh Hs)
    as [[[r seq'] mesh'] Hrun]; [lia|apply remaining_le_Size; lia|].
  rewrite <- ApplyImpl_nonempty in Hrun by done.
  exists r, seq', mesh'. split; [done|].
  destruct (ApplyImpl_step_range seq mesh r seq' mesh' Hs ltac:(lia) Hrun) as [Hsz Hrg].
  split; [|done]. unfold Size, Array_Size in Hsz. lia.
Qed.

(** X2. After [Reset] the cursor is 0, so the next call starts at the second
    child: on a sequence of two or more children the first child is not
    applied by that call, and stays as [Reset] left it. *)
Theorem ApplyImpl_after_Reset (reset : MeshOperator -> MeshOperator)
  (seq : MeshOperatorSequence) (mesh : Mesh) :
  2 <= Size seq ->
  exists r seq' mesh',
    ApplyImpl (Reset reset seq) mesh = Some (r, seq', mesh') /\
    sequence seq' !! 0%nat = reset <$> (sequence seq !! 0%nat).
Proof.
  intros H2.
  assert (Size (Reset reset seq) = Size seq) as Hsz
    by (unfold Size, Array_Size, Reset; cbn; by rewrite length_fmap).
  assert (0 < Size (Reset reset seq)) as Hs by lia.
  assert (-1 <= step (Reset reset seq)) as Hc by (cbn; lia).
  destruct (next_step_total (length (sequence (Reset reset seq))) (Reset reset seq) mesh Hs Hc)
    as [[[r seq'] mesh'] Hrun]; [by apply remaining_le_Size|].
  exists r, seq', mesh'.
  assert (Z.rem (step (Reset reset seq) + 1) (Size (Reset reset seq)) = 1) as Hcur.
  { rewrite Hsz. cbn [step Reset]. apply Z.rem_small. lia. }
  split; [by rewrite ApplyImpl_nonempty|].
  rewrite (next_step_untouched _ _ _ _ _ _ 0 Hs Hc Hrun) by (rewrite Hcur; lia).
  cbn. by rewrite list_lookup_fmap.
Qed.

(** X3. Where the next call starts. After a child reports [REPEAT] the
    cursor has moved back, and the next call starts with that same child, in
    the state the call left it. After [CONTINUE] or [STOP] the cursor stays
    on the child: the next call starts at the position after it (wrapping),
    also when the sequence has answered [REPEAT] for a [CONTINUE] that was
    not at the last position. *)
Theorem ApplyImpl_next_child (seq : MeshOperatorSequence) (mesh : Mesh)
  (op : MeshOperator) :
  case_labels_distinct codes ->
  sequence seq <> [] ->
  -1 <= step seq ->
  let cur := Z.rem (step seq + 1) (Size seq) in
  Array_at (sequence seq) cur = Some op ->
  let '(mod_, op', mesh') := child_ApplyImpl op mesh in
  let act := Z.land mod_ MASK_ACTION in
  (act = REPEAT ->
     exists seq',
       ApplyImpl seq mesh = Some (mod_, seq', mesh') /\
       Z.rem (step seq' + 1) (Size seq') = cur /\
       Array_at (sequence seq') cur = Some op') /\
  (act = CONTINUE \/ act = STOP ->
     exists r seq',
       ApplyImpl seq mesh = Some (r, seq', mesh') /\
       Z.rem (step seq' + 1) (Size seq') = (cur + 1) `mod` Size seq).
Proof.
  intros Hd Hne Hc cur Hop.
  pose proof (Size_pos seq Hne) as Hs.
  pose proof (cursor_range seq Hs Hc) as Hr. fold cur in Hr.
  rewrite ApplyImpl_nonempty by done.
  destruct (length (sequence seq)) as [|fuel] eqn:Hlen.
  { unfold Size, Array_Size in Hs. lia. }
  rewrite (next_step_unfold fuel seq mesh op Hop). fold cur.
  destruct (child_ApplyImpl op mesh) as [[mod_ op'] mesh'].
  destruct (labels_apart Hd) as (N1 & N2 & N3 & N4 & N5 & N6).
  cbv zeta. split.
  - intros ->.
    rewrite (proj2 (Z.eqb_neq _ _) (not_eq_sym N3)).
    rewrite (proj2 (Z.eqb_neq _ _) (not_eq_sym N5)).
    rewrite (proj2 (Z.eqb_neq _ _) (not_eq_sym N6)), Z.eqb_refl.
    eexists. split; [reflexivity|].
    assert (Size (with_step (advanced seq cur op') (cur - 1)) = Size seq) as ->
      by exact (Size_advanced seq cur op').
    cbn [step with_step]. split.
    + replace (cur - 1 + 1) with cur by lia. apply Z.rem_small. lia.
    + unfold Array_at. rewrite decide_True by lia. cbn.
      apply list_lookup_insert_eq. unfold Size, Array_Size in Hr. lia.
  - assert (forall r : Z, exists (r0 : Z) (seq' : MeshOperatorSequence),
        Some (r, advanced seq cur op', mesh') = Some (r0, seq', mesh') /\
        Z.rem (step seq' + 1) (Size seq') = (cur + 1) `mod` Size seq) as Hstay.
    { intros r. eexists _, _. split; [reflexivity|].
      rewrite Size_advanced. cbn [step advanced]. apply Z.rem_mod_nonneg; lia. }
    intros [-> | ->].
    + rewrite (proj2 (Z.eqb_neq _ _) (not_eq_sym N1)), Z.eqb_refl. apply Hstay.
    + rewrite (proj2 (Z.eqb_neq _ _) (not_eq_sym N2)).
      rewrite (proj2 (Z.eqb_neq _ _) (not_eq_sym N4)), Z.eqb_refl. apply Hstay.
Qed.

(** X4. When every child reports [NONE], a call from any cursor position
    runs the children up to the last one and returns [NONE] with the cursor
    on the last child; the next call then runs all of them and returns
    [NONE] again. *)
Theorem ApplyImpl_quiescent (seq : MeshOperatorSequence) (mesh : Mesh) :
  Forall quiescent (sequence seq) ->
  sequence seq <> [] ->
  -1 <= step seq ->
  exists seq' mesh',
    ApplyImpl seq mesh = Some (NONE, seq', mesh') /\
    step seq' = Size seq - 1 /\
    exists seq'' mesh'',
      ApplyImpl seq' mesh' = Some (NONE, seq'', mesh'') /\
      step seq'' = Size seq - 1.
Proof.
  intros Hq Hne Hc. pose proof (Size_pos seq Hne) as Hs.
  destruct (next_step_quiescent (length (sequence seq)) seq mesh Hq Hs Hc)
    as (seq' & mesh' & Hrun & Hstep & Hsz & Hq'); [by apply remaining_le_Size|].
  exists seq', mesh'. rewrite ApplyImpl_nonempty by done.
  split; [done|]. split; [done|].
  assert (0 < Size seq') as Hs' by lia.
  assert (-1 <= step seq') as Hc' by lia.
  destruct (next_step_quiescent (length (sequence seq')) seq' mesh' Hq' Hs' Hc')
    as (seq'' & mesh'' & Hrun' & Hstep' & _ & _); [by apply remaining_le_Size|].
  exists seq'', mesh''. rewrite ApplyImpl_nonempty by done.
  split; [done|]. lia.
Qed.

(** The masks split a word into its action and its info flags, and
    [REPEAT] is an action. *)
Definition masks_apart (codes : ActionCodes) : Prop :=
  Z.land MASK_INFO MASK_ACTION = 0 /\
  Z.land REPEAT MASK_ACTION = REPEAT /\
  Z.land REPEAT MASK_INFO = 0.

(** X15. The word that the sequence returns for a [CONTINUE] met before the
    last position decodes, under the two masks, to the action [REPEAT] and to
    the info flags of the child. *)
Theorem ApplyImpl_keeps_info (seq : MeshOperatorSequence) (mesh : Mesh)
  (op : MeshOperator) :
  case_labels_distinct codes ->
  masks_apart codes ->
  sequence seq <> [] ->
  -1 <= step seq ->
  let cur := Z.rem (step seq + 1) (Size seq) in
  Array_at (sequence seq) cur = Some op ->
  let '(mod_, op', mesh') := child_ApplyImpl op mesh in
  Z.land mod_ MASK_ACTION = CONTINUE ->
  cur <> Size seq - 1 ->
  exists r seq',
    ApplyImpl seq mesh = Some (r, seq', mesh') /\
    Z.land r MASK_ACTION = REPEAT /\
    Z.land r MASK_INFO = Z.land mod_ MASK_INFO.
Proof.
  intros Hd (Hma & Hra & Hri) Hne Hc cur Hop.
  pose proof (Size_pos seq Hne) as Hs.
  rewrite ApplyImpl_nonempty by done.
  destruct (length (sequence seq)) as [|fuel] eqn:Hlen.
  { unfold Size, Array_Size in Hs. lia. }
  rewrite (next_step_unfold fuel seq mesh op Hop). fold cur.
  destruct (child_ApplyImpl op mesh) as [[mod_ op'] mesh'].
  destruct (labels_apart Hd) as (N1 & _).
  cbv zeta. intros Hact Hlast. rewrite Hact.
  rewrite (proj2 (Z.eqb_neq _ _) (not_eq_sym N1)), Z.eqb_refl.
  rewrite (proj2 (Z.eqb_neq _ _) Hlast).
  eexists _, _. split; [reflexivity|]. split.
  - rewrite Z.land_lor_distr_l, Hra, <- Z.land_assoc, Hma, Z.land_0_r.
    apply Z.lor_0_r.
  - rewrite Z.land_lor_distr_l, Hri, <- Z.land_assoc, Z.land_diag.
    apply Z.lor_0_l.
Qed.

End WithOperators.

(** *** A sequence to run

    The mesh is a count of refinements; a child holds a budget and refines
    ([CONTINUE + REFINED]) while it lasts, then reports [NONE]. *)

Definition budget_impl (st : nat) (mesh : Z) : Z * nat * Z :=
  match st with
  | O => (@NONE mfem_codes, O, mesh)
  | S k => (@CONTINUE mfem_codes + @REFINED mfem_codes, k, mesh + 1)
  end.

Definition budget_op (n : nat) : MeshOperator (Mesh := Z) :=
  {| op_state := n; op_impl := budget_impl |}.

Definition two_ops : MeshOperatorSequence :=
  {| sequence := [budget_op 1; budget_op 0]; step := -1 |}.

Example two_ops_first_call :
  ApplyImpl (codes := mfem_codes) two_ops 0
  = Some (Z.lor 3 4, {| sequence := [budget_op 0; budget_op 0]; step := 0 |}, 1).
Proof. reflexivity. Qed.

Example two_ops_second_call :
  ApplyImpl (codes := mfem_codes)
    {| sequence := [budget_op 0; budget_op 0]; step := 0 |} 1
  = Some (0, {| sequence := [budget_op 0; budget_op 0]; step := 1 |}, 1).
Proof. reflexivity. Qed.

Lemma ApplyImpl_dispatch_witness :
  is_Some (ApplyImpl (codes := mfem_codes) two_ops 0).
Proof.
  refine (proj1 (ApplyImpl_dispatch (codes := mfem_codes) two_ops 0
                   mfem_codes_distinct _ _)).
  - discriminate.
  - cbn. lia.
Defined.

(** A child that never has anything to do. *)
Definition idle_op : MeshOperator (Mesh := Z) (OpState := nat) :=
  {| op_state := O; op_impl := fun st mesh => (@NONE mfem_codes, st, mesh) |}.

Definition two_idle : MeshOperatorSequence :=
  {| sequence := [idle_op; idle_op]; step := -1 |}.

Lemma ApplyImpl_cursor_invariant_witness :
  exists out, ApplyImpl (codes := mfem_codes) two_ops 0 = Some out /\
              -1 <= step out.1.2 < Size out.1.2.
Proof.
  destruct (ApplyImpl_cursor_invariant (codes := mfem_codes) two_ops 0)
    as (r & seq' & mesh' & Hrun & _ & Hrange).
  - discriminate.
  - split; [by vm_compute|reflexivity].
  - by exists (r, seq', mesh').
Defined.

Lemma ApplyImpl_after_Reset_witness :
  exists out, ApplyImpl (codes := mfem_codes) (Reset (fun _ => budget_op 1) two_ops) 0
              = Some out /\
              sequence out.1.2 !! 0%nat = Some (budget_op 1).
Proof.
  destruct (ApplyImpl_after_Reset (codes := mfem_codes) (fun _ => budget_op 1) two_ops 0)
    as (r & seq' & mesh' & Hrun & Hfirst).
  - by vm_compute.
  - by exists (r, seq', mesh').
Defined.

(** The call after [Reset] indeed goes to the second child, whose budget
    [Reset] has restored. *)
Example two_ops_after_Reset :
  ApplyImpl (codes := mfem_codes) (Reset (fun _ => budget_op 1) two_ops) 0
  = Some (5, {| sequence := [budget_op 1; budget_op 0]; step := 1 |}, 1).
Proof. reflexivity. Qed.

Lemma ApplyImpl_next_child_witness :
  exists r seq',
    ApplyImpl (codes := mfem_codes) two_ops 0 = Some (r, seq', 1) /\
    Z.rem (step seq' + 1) (Size seq') = 1.
Proof.
  pose proof (ApplyImpl_next_child (codes := mfem_codes) two_ops 0 (budget_op 1)
                mfem_codes_distinct) as H.
  specialize (H ltac:(discriminate) ltac:(cbn; lia) eq_refl).
  cbn in H. destruct H as [_ H]. apply H. by left.
Defined.

Lemma ApplyImpl_quiescent_witness :
  exists seq' mesh',
    ApplyImpl (codes := mfem_codes) two_idle 7 = Some (0, seq', mesh') /\
    step seq' = 1.
Proof.
  destruct (ApplyImpl_quiescent (codes := mfem_codes) two_idle 7)
    as (seq' & mesh' & Hrun & Hstep & _).
  - repeat constructor.
  - discriminate.
  - cbn. lia.
  - by exists seq', mesh'.
Defined.

Lemma mfem_masks_apart : masks_apart mfem_codes.
Proof. repeat split. Defined.

Lemma ApplyImpl_keeps_info_witness :
  exists r seq',
    ApplyImpl (codes := mfem_codes) two_ops 0 = Some (r, seq', 1) /\
    Z.land r 3 = 3 /\ Z.land r (Z.lnot 3) = 4.
Proof.
  pose proof (ApplyImpl_keeps_info (codes := mfem_codes) two_ops 0 (budget_op 1)
                mfem_codes_distinct mfem_masks_apart) as H.
  specialize (H ltac:(discriminate) ltac:(by vm_compute) eq_refl).
  cbn in H. apply H; [reflexivity|discriminate].
Defined.

End Sequence.

(** ** Collaborators of the threshold operators

    [double] and the library calls on it are parameters: the properties below
    hold for every interpretation of the arithmetic, IEEE 754 included. *)

Class DoubleOps (double : Type) : Type := {
  (** conversion of an integer ([int], [long]) to [double]; [0.0] and
      [-1.0] are the conversions of [0] and [-1] *)
  d_of_long : Z -> double;
  d_add : double -> double -> double;
  d_mul : double -> double -> double;
  d_div : double -> double -> double;
  (** [a < b] and [a <= b] *)
  d_lt : double -> double -> bool;
  d_le : double -> double -> bool;
  (** [std::pow] *)
  d_pow : double -> double -> double;
  (** [infinity()], [std::numeric_limits<double>::max()] and [lowest()] *)
  d_infinity : double;
  d_max_value : double;
  d_lowest : double
}.

(** [a > b] is [b < a]. *)
Definition d_gt {double : Type} {dbl : DoubleOps double} (a b : double) : bool :=
  d_lt b a.

(** [std::max(a, b)] is [(a < b) ? b : a]. *)
Definition std_max {double : Type} {dbl : DoubleOps double} (a b : double) : double :=
  if d_lt a b then b else a.

(** [std::numeric_limits<long>::max()], for a 64-bit [long]. *)
Definition LONG_MAX : Z := 2 ^ 63 - 1.

(** [struct Refinement]: an element index and a refinement type. *)
Record Refinement : Type := {
  index : Z;
  ref_type : Z
}.

(** The mesh, the error estimator and the vector norms, as the operators use
    them (mesh.hpp, pmesh.hpp, ncmesh.hpp, estimators.hpp and vector.hpp are
    not among the sources). [Comm] is the communicator of a [ParMesh]. *)
Class MeshLibrary (double Mesh Estimator Comm : Type) : Type := {
  GetSequence : Mesh -> Z;
  GetGlobalNE : Mesh -> Z;
  GetNE : Mesh -> Z;
  (** [mesh.Nonconforming()]: the mesh has an [ncmesh] *)
  Nonconforming : Mesh -> bool;
  (** [mesh.GetNodes()->FESpace()->GetElementDofs(el, dofs)] *)
  GetElementDofs : Mesh -> Z -> list Z;
  (** [mesh.GetNode(i, vert)]: [vert[0]], [vert[1]], [vert[2]] *)
  GetNode : Mesh -> Z -> double * double * double;
  (** the depth of an element in the refinement hierarchy, which the source
      reads as [mesh.ncmesh->GetElementDepth(el)], on a nonconforming mesh *)
  GetElementDepth : Mesh -> Z -> Z;
  (** [mesh.ReduceInt(value)]: the sum of [value] over the workers *)
  ReduceInt : Mesh -> Z -> Z;
  GeneralRefinement : Mesh -> list Refinement -> Z -> Z -> Mesh;
  (** [mesh.DerefineByError(errors, threshold, nc_limit, op)] *)
  DerefineByError : Mesh -> list double -> double -> Z -> Z -> bool * Mesh;
  (** [dynamic_cast<ParMesh*>(&mesh)], then [pmesh->GetComm()]; [None] for a
      serial mesh or a build without MPI *)
  pmesh_comm : Mesh -> option Comm;
  (** the default second argument of [Refinement(int index, int type)] *)
  Refinement_default_type : Z;
  (** [estimator.GetLocalErrors()], which may refresh the estimator's cache *)
  GetLocalErrors : Estimator -> Mesh -> list double * Estimator;
  (** [dynamic_cast<AnisotropicErrorEstimator*>(&estimator)] is not null *)
  is_anisotropic : Estimator -> bool;
  (** [aniso_estimator->GetAnisotropicFlags()] *)
  GetAnisotropicFlags : Estimator -> Mesh -> list Z * Estimator;
  (** [local_err.Normlp(p)] and [ParNormlp(local_err, p, comm)] *)
  Normlp : list double -> double -> double;
  ParNormlp : list double -> double -> Comm -> double
}.

(** [mesh.Conforming()] is the negation of [mesh.Nonconforming()]. *)
Definition Conforming {double Mesh Estimator Comm : Type}
  {lib : MeshLibrary double Mesh Estimator Comm} (mesh : Mesh) : bool :=
  negb (Nonconforming mesh).

(** ** ThresholdRefiner *)

Module Refiner.
Section WithLibrary.

Context {codes : ActionCodes}.
Context {double : Type} {dbl : DoubleOps double}.
Context {Mesh Estimator Comm : Type} {lib : MeshLibrary double Mesh Estimator Comm}.

(** The estimator is a separate object ([ErrorEstimator &estimator]); the
    operator keeps whether the cast to the anisotropic interface succeeded. *)
Record ThresholdRefiner : Type := {
  aniso_estimator : bool;
  total_norm_p : double;
  total_err_goal : double;
  total_fraction : double;
  local_err_goal : double;
  max_elements : Z;
  amr_levels : Z;
  xRange_levels : Z;
  xRange : bool;
  yRange_levels : Z;
  yRange : bool;
  xmax : double;
  ymax : double;
  xmin : double;
  ymin : double;
  threshold : double;
  num_marked_elements : Z;
  marked_elements : list Refinement;
  current_sequence : Z;
  non_conforming : Z;
  nc_limit : Z
}.

(** The constructor [ThresholdRefiner(est)]. *)
Definition new_ThresholdRefiner (est : Estimator) : ThresholdRefiner := {|
  aniso_estimator := is_anisotropic est;
  total_norm_p := d_infinity;
  total_err_goal := d_of_long 0;
  total_fraction := d_div (d_of_long 1) (d_of_long 2);
  local_err_goal := d_of_long 0;
  max_elements := LONG_MAX;
  amr_levels := LONG_MAX;
  xRange_levels := LONG_MAX;
  xRange := false;
  yRange_levels := LONG_MAX;
  yRange := false;
  xmax := d_max_value;
  ymax := d_max_value;
  xmin := d_lowest;
  ymin := d_lowest;
  threshold := d_of_long 0;
  num_marked_elements := 0;
  marked_elements := [];
  current_sequence := -1;
  non_conforming := -1;
  nc_limit := 0
|}.

(** Assignment to the four fields that a call writes. *)
Definition with_bookkeeping (r : ThresholdRefiner) (thr : double) (num : Z)
  (marked : list Refinement) (cur_seq : Z) : ThresholdRefiner := {|
  aniso_estimator := aniso_estimator r;
  total_norm_p := total_norm_p r;
  total_err_goal := total_err_goal r;
  total_fraction := total_fraction r;
  local_err_goal := local_err_goal r;
  max_elements := max_elements r;
  amr_levels := amr_levels r;
  xRange_levels := xRange_levels r;
  xRange := xRange r;
  yRange_levels := yRange_levels r;
  yRange := yRange r;
  xmax := xmax r;
  ymax := ymax r;
  xmin := xmin r;
  ymin := ymin r;
  threshold := thr;
  num_marked_elements := num;
  marked_elements := marked;
  current_sequence := cur_seq;
  non_conforming := non_conforming r;
  nc_limit := nc_limit r
|}.

(** [ThresholdRefiner::GetNorm]. *)
Definition GetNorm (r : ThresholdRefiner) (local_err : list double) (mesh : Mesh)
  : double :=
  match pmesh_comm mesh with
  | Some comm => ParNormlp local_err (total_norm_p r) comm
  | None => Normlp local_err (total_norm_p r)
  end.

(** [Refinement(el)]. *)
Definition Refinement_of (el : Z) : Refinement :=
  {| index := el; ref_type := Refinement_default_type |}.

(** The sums [yMean] and [xMean] over the nodes of an element, divided by
    the number of nodes. *)
Definition nodal_sums (mesh : Mesh) (dofs : list Z) : double * double :=
  fold_left
    (fun '(yMean, xMean) dof =>
       let '(v0, v1, _) := GetNode mesh dof in
       (d_add yMean v1, d_add xMean v0))
    dofs (d_of_long 0, d_of_long 0).

Definition nodal_means (mesh : Mesh) (el : Z) : double * double :=
  let dofs := GetElementDofs mesh el in
  let ndof := Array_Size dofs in
  let '(yMean, xMean) := nodal_sums mesh dofs in
  (d_div yMean (d_of_long ndof), d_div xMean (d_of_long ndof)).

(** The body of the marking loop for one element. *)
Definition mark_element (r : ThresholdRefiner) (thr : double) (local_err : list double)
  (mesh : Mesh) (el : Z) (marked : list Refinement) : option (list Refinement) :=
  if (yRange r || xRange r) && Nonconforming mesh then
    let '(yMean, xMean) := nodal_means mesh el in
    let elementLevel := GetElementDepth mesh el in
    e ← Array_at local_err el;
    if d_gt e thr && (elementLevel <? amr_levels r) &&
       (GetElementDepth mesh el <? amr_levels r) &&
       ((d_gt yMean (ymin r) && d_lt yMean (ymax r)) || (elementLevel <? yRange_levels r)) &&
       ((d_gt xMean (xmin r) && d_lt xMean (xmax r)) || (elementLevel <? xRange_levels r))
    then Some (marked ++ [Refinement_of el])
    else Some marked
  else if Nonconforming mesh then
    e ← Array_at local_err el;
    if d_gt e thr && (GetElementDepth mesh el <? amr_levels r)
    then Some (marked ++ [Refinement_of el])
    else Some marked
  else
    e ← Array_at local_err el;
    if d_gt e thr then Some (marked ++ [Refinement_of el]) else Some marked.

(** [for (int el = 0; el < NE; el++)], entered at [el] with [n] turns left. *)
Fixpoint mark_loop (r : ThresholdRefiner) (thr : double) (local_err : list double)
  (mesh : Mesh) (n : nat) (el : Z) (marked : list Refinement)
  : option (list Refinement) :=
  match n with
  | O => Some marked
  | S n' =>
      marked' ← mark_element r thr local_err mesh el marked;
      mark_loop r thr local_err mesh n' (el + 1) marked'
  end.

(** [ref.ref_type = aniso_flags[ref.index]] for every marked element. *)
Fixpoint override_ref_types (aniso_flags : list Z) (marked : list Refinement)
  : option (list Refinement) :=
  match marked with
  | [] => Some []
  | ref :: rest =>
      flag ← Array_at aniso_flags (index ref);
      rest' ← override_ref_types aniso_flags rest;
      Some ({| index := index ref; ref_type := flag |} :: rest')
  end.

(** [ThresholdRefiner::ApplyImpl]. *)
Definition ApplyImpl (r : ThresholdRefiner) (est : Estimator) (mesh : Mesh)
  : option (Z * ThresholdRefiner * Estimator * Mesh) :=
  let r := with_bookkeeping r (d_of_long 0) 0 [] (GetSequence mesh) in
  let num_elements := GetGlobalNE mesh in
  if max_elements r <=? num_elements then Some (STOP, r, est, mesh) else
  let NE := GetNE mesh in
  let '(local_err, est) := GetLocalErrors est mesh in
  let total_err := GetNorm r local_err mesh in
  if d_le total_err (total_err_goal r) then Some (STOP, r, est, mesh) else
  let thr :=
    if d_lt (total_norm_p r) d_infinity then
      std_max (d_mul (d_mul total_err (total_fraction r))
                     (d_pow (d_of_long num_elements)
                            (d_div (d_of_long (-1)) (total_norm_p r))))
              (local_err_goal r)
    else
      std_max (d_mul total_err (total_fraction r)) (local_err_goal r) in
  marked ← mark_loop r thr local_err mesh (Z.to_nat NE) 0 [];
  '(marked, est) ←
    (if aniso_estimator r then
       let '(aniso_flags, est) := GetAnisotropicFlags est mesh in
       if 0 <? Array_Size aniso_flags then
         marked' ← override_ref_types aniso_flags marked; Some (marked', est)
       else Some (marked, est)
     else Some (marked, est));
  let num := ReduceInt mesh (Array_Size marked) in
  let r := with_bookkeeping r thr num marked (current_sequence r) in
  if num =? 0 then Some (STOP, r, est, mesh)
  else Some (CONTINUE + REFINED, r, est,
             GeneralRefinement mesh marked (non_conforming r) (nc_limit r)).

(** *** The call as a total function

    When the vector of local errors has one entry per element (the
    [MFEM_ASSERT] of the source) and the flag array, if it is not empty,
    covers the elements, no array access of the call is out of range. *)

Definition sizes_agree (est : Estimator) (mesh : Mesh) : Prop :=
  Array_Size (GetLocalErrors est mesh).1 = GetNE mesh /\
  let aniso_flags := (GetAnisotropicFlags (GetLocalErrors est mesh).2 mesh).1 in
  Array_Size aniso_flags = 0 \/ GetNE mesh <= Array_Size aniso_flags.

(** The test that one turn of the marking loop applies to element [el]
    with local error [e]. *)
Definition eligible (r : ThresholdRefiner) (thr : double) (mesh : Mesh)
  (el : Z) (e : double) : bool :=
  d_gt e thr &&
  (if Nonconforming mesh then
     (GetElementDepth mesh el <? amr_levels r) &&
     (if yRange r || xRange r then
        ((d_gt (nodal_means mesh el).1 (ymin r) && d_lt (nodal_means mesh el).1 (ymax r))
         || (GetElementDepth mesh el <? yRange_levels r)) &&
        ((d_gt (nodal_means mesh el).2 (xmin r) && d_lt (nodal_means mesh el).2 (xmax r))
         || (GetElementDepth mesh el <? xRange_levels r))
      else true)
   else true).

Definition selects (r : ThresholdRefiner) (thr : double) (local_err : list double)
  (mesh : Mesh) (el : Z) : Prop :=
  match Array_at local_err el with
  | Some e => Is_true (eligible r thr mesh el e)
  | None => False
  end.

#[local] Instance selects_dec r thr local_err mesh el :
  Decision (selects r thr local_err mesh el).
Proof. unfold selects. destruct (Array_at local_err el); apply _. Defined.

Definition marking_threshold (r : ThresholdRefiner) (total_err : double)
  (num_elements : Z) : double :=
  if d_lt (total_norm_p r) d_infinity then
    std_max (d_mul (d_mul total_err (total_fraction r))
                   (d_pow (d_of_long num_elements)
                          (d_div (d_of_long (-1)) (total_norm_p r))))
            (local_err_goal r)
  else
    std_max (d_mul total_err (total_fraction r)) (local_err_goal r).

Definition flagged (aniso_flags : list Z) (ref : Refinement) : Refinement :=
  {| index := index ref; ref_type := default 0 (Array_at aniso_flags (index ref)) |}.

Definition run (r : ThresholdRefiner) (est : Estimator) (mesh : Mesh)
  : Z * ThresholdRefiner * Estimator * Mesh :=
  let r0 := with_bookkeeping r (d_of_long 0) 0 [] (GetSequence mesh) in
  if max_elements r <=? GetGlobalNE mesh then (STOP, r0, est, mesh) else
  let local_err := (GetLocalErrors est mesh).1 in
  let est1 := (GetLocalErrors est mesh).2 in
  let total_err := GetNorm r local_err mesh in
  if d_le total_err (total_err_goal r) then (STOP, r0, est1, mesh) else
  let thr := marking_threshold r total_err (GetGlobalNE mesh) in
  let sel := Refinement_of <$> filter (selects r thr local_err mesh) (seqZ 0 (GetNE mesh)) in
  let aniso_flags := (GetAnisotropicFlags est1 mesh).1 in
  let marked :=
    if aniso_estimator r && (0 <? Array_Size aniso_flags)
    then flagged aniso_flags <$> sel else sel in
  let est2 := if aniso_estimator r then (GetAnisotropicFlags est1 mesh).2 else est1 in
  let num := ReduceInt mesh (Array_Size marked) in
  let r2 := with_bookkeeping r thr num marked (GetSequence mesh) in
  if num =? 0 then (STOP, r2, est2, mesh)
  else (CONTINUE + REFINED, r2, est2,
        GeneralRefinement mesh marked (non_conforming r) (nc_limit r)).

(** The postponed part of a call: the guard on the element count has passed
    and the aggregate error has not met the goal. *)
Definition reaches_marking (r : ThresholdRefiner) (est : Estimator) (mesh : Mesh)
  : Prop :=
  GetGlobalNE mesh < max_elements r /\
  d_le (GetNorm r (GetLocalErrors est mesh).1 mesh) (total_err_goal r) = false.

(** The marking rule in the words of the specification: the depth cap on
    every mesh, and the window of an axis under the flag of that axis. *)
Definition marks_as_specified (r : ThresholdRefiner) (est : Estimator) (mesh : Mesh)
  : Prop :=
  reaches_marking r est mesh ->
  forall res r' est' mesh',
    ApplyImpl r est mesh = Some (res, r', est', mesh') ->
    forall el : Z,
      el ∈ index <$> marked_elements r' <->
      0 <= el < GetNE mesh /\
      exists e, Array_at (GetLocalErrors est mesh).1 el = Some e /\
        d_gt e (threshold r') = true /\
        GetElementDepth mesh el < amr_levels r /\
        (yRange r = true ->
           (d_gt (nodal_means mesh el).1 (ymin r) = true /\
            d_lt (nodal_means mesh el).1 (ymax r) = true)
           \/ GetElementDepth mesh el < yRange_levels r) /\
        (xRange r = true ->
           (d_gt (nodal_means mesh el).2 (xmin r) = true /\
            d_lt (nodal_means mesh el).2 (xmax r) = true)
           \/ GetElementDepth mesh el < xRange_levels r).

Lemma mark_element_eligible r thr local_err mesh el marked e :
  Array_at local_err el = Some e ->
  mark_element r thr local_err mesh el marked
  = Some (if eligible r thr mesh el e then marked ++ [Refinement_of el] else marked).
Proof.
  intros He. unfold mark_element, eligible. rewrite He.
  destruct (nodal_means mesh el) as [yMean xMean]. cbn.
  destruct (yRange r), (xRange r), (Nonconforming mesh); cbn;
    destruct (d_gt e thr); cbn; try done;
    destruct (GetElementDepth mesh el <? amr_levels r); cbn; try done;
    repeat case_match; done.
Qed.

Lemma mark_loop_filter r thr local_err mesh (n : nat) (el : Z) marked :
  (forall k, el <= k < el + Z.of_nat n -> is_Some (Array_at local_err k)) ->
  mark_loop r thr local_err mesh n el marked
  = Some (marked ++
          (Refinement_of <$> filter (selects r thr local_err mesh) (seqZ el (Z.of_nat n)))).
Proof.
  revert el marked. induction n as [|n IH]; intros el marked Hin.
  { cbn. by rewrite seqZ_nil, app_nil_r. }
  cbn [mark_loop].
  destruct (Hin el ltac:(lia)) as [e He].
  rewrite (mark_element_eligible _ _ _ _ _ _ e He). cbn.
  rewrite IH by (intros k Hk; apply Hin; lia).
  rewrite (seqZ_cons el) by lia.
  replace (Z.pred (Z.of_nat (S n))) with (Z.of_nat n) by lia.
  replace (Z.succ el) with (el + 1) by lia.
  rewrite filter_cons.
  destruct (decide (selects r thr local_err mesh el)) as [Hs|Hs];
    unfold selects in Hs; rewrite He in Hs;
    destruct (eligible r thr mesh el e); try done.
  - cbn. by rewrite <- app_assoc.
Qed.

Lemma override_flagged aniso_flags marked :
  (forall ref, ref ∈ marked -> 0 <= index ref < Array_Size aniso_flags) ->
  override_ref_types aniso_flags marked = Some (flagged aniso_flags <$> marked).
Proof.
  induction marked as [|ref rest IH]; intros Hin; [done|].
  cbn [override_ref_types].
  destruct (Array_at_Some aniso_flags (index ref)) as [flag Hflag].
  { apply Hin. left. }
  rewrite Hflag. cbn [mbind option_bind].
  rewrite IH by (intros ? ?; apply Hin; by right).
  cbn [mbind option_bind]. rewrite fmap_cons.
  unfold flagged at 2. by rewrite Hflag.
Qed.

Lemma selected_index r thr local_err mesh ref :
  ref ∈ Refinement_of <$> filter (selects r thr local_err mesh) (seqZ 0 (GetNE mesh)) ->
  0 <= index ref < GetNE mesh.
Proof.
  rewrite list_elem_of_fmap. intros (el & -> & Hel).
  apply list_elem_of_filter in Hel as [_ Hel]. apply elem_of_seqZ in Hel.
  cbn. lia.
Qed.

(** Under [sizes_agree] the call returns, and what it returns is [run]. *)
Lemma ApplyImpl_run r est mesh :
  sizes_agree est mesh -> ApplyImpl r est mesh = Some (run r est mesh).
Proof.
  intros [Hsz Hflags]. unfold ApplyImpl, run. cbn [max_elements with_bookkeeping].
  destruct (max_elements r <=? GetGlobalNE mesh); [done|].
  destruct (GetLocalErrors est mesh) as [local_err est1] eqn:Herr.
  cbn [fst snd] in *.
  change (GetNorm (with_bookkeeping r (d_of_long 0) 0 [] (GetSequence mesh)))
    with (GetNorm r).
  cbn [total_err_goal with_bookkeeping].
  destruct (d_le (GetNorm r local_err mesh) (total_err_goal r)); [done|].
  fold (marking_threshold r (GetNorm r local_err mesh) (GetGlobalNE mesh)).
  set (thr := marking_threshold r (GetNorm r local_err mesh) (GetGlobalNE mesh)).
  assert (forall n el marked,
    mark_loop (with_bookkeeping r (d_of_long 0) 0 [] (GetSequence mesh))
      thr local_err mesh n el marked
    = mark_loop r thr local_err mesh n el marked) as ->.
  { induction n as [|n IH]; intros el marked; [done|]. cbn [mark_loop].
    change (mark_element (with_bookkeeping r (d_of_long 0) 0 [] (GetSequence mesh)))
      with (mark_element r).
    destruct (mark_element r thr local_err mesh el marked); cbn; [apply IH|done]. }
  rewrite mark_loop_filter; last first.
  { intros k Hk. apply Array_at_Some. lia. }
  rewrite app_nil_l. cbn [mbind option_bind].
  assert (Z.of_nat (Z.to_nat (GetNE mesh)) = GetNE mesh) as ->
    by (unfold Array_Size in Hsz; lia).
  set (sel := Refinement_of <$> filter _ _).
  cbn [aniso_estimator with_bookkeeping current_sequence non_conforming nc_limit].
  destruct (aniso_estimator r); cbn [andb].
  2: { cbn [mbind option_bind]. destruct (_ =? 0); reflexivity. }
  destruct (GetAnisotropicFlags est1 mesh) as [aniso_flags est2]. cbn [fst snd] in *.
  destruct (Z.ltb_spec 0 (Array_Size aniso_flags)) as [Hpos|Hnp].
  2: { cbn [mbind option_bind]. destruct (_ =? 0); reflexivity. }
  rewrite override_flagged.
  - cbn [mbind option_bind]. destruct (_ =? 0); reflexivity.
  - intros ref Href. apply selected_index in Href. destruct Hflags; lia.
Qed.

Lemma eligible_true r thr mesh el e :
  eligible r thr mesh el e = true <->
  d_gt e thr = true /\
  (Nonconforming mesh = true ->
     GetElementDepth mesh el < amr_levels r /\
     (yRange r = true \/ xRange r = true ->
        ((d_gt (nodal_means mesh el).1 (ymin r) = true /\
          d_lt (nodal_means mesh el).1 (ymax r) = true)
         \/ GetElementDepth mesh el < yRange_levels r) /\
        ((d_gt (nodal_means mesh el).2 (xmin r) = true /\
          d_lt (nodal_means mesh el).2 (xmax r) = true)
         \/ GetElementDepth mesh el < xRange_levels r))).
Proof.
  unfold eligible.
  rewrite andb_true_iff. apply and_iff_compat_l.
  destruct (Nonconforming mesh); [|intuition discriminate].
  rewrite andb_true_iff, Z.ltb_lt.
  destruct (yRange r), (xRange r); cbn [orb];
    rewrite ?andb_true_iff, ?orb_true_iff, ?andb_true_iff, ?Z.ltb_lt;
    intuition discriminate.
Qed.

Lemma index_flagged aniso_flags (l : list Refinement) :
  index <$> (flagged aniso_flags <$> l) = index <$> l.
Proof. rewrite <- list_fmap_compose. by apply list_fmap_ext. Qed.

Lemma index_Refinement_of (l : list Z) : index <$> (Refinement_of <$> l) = l.
Proof. rewrite <- list_fmap_compose. rewrite <- (list_fmap_id l) at 2. by apply list_fmap_ext. Qed.

Lemma run_reaches_marking r est mesh :
  reaches_marking r est mesh ->
  exists res mesh',
    run r est mesh =
      (res,
       with_bookkeeping r
         (marking_threshold r (GetNorm r (GetLocalErrors est mesh).1 mesh)
            (GetGlobalNE mesh))
         (num_marked_elements (run r est mesh).1.1.2)
         (marked_elements (run r est mesh).1.1.2)
         (GetSequence mesh),
       (if aniso_estimator r
        then (GetAnisotropicFlags (GetLocalErrors est mesh).2 mesh).2
        else (GetLocalErrors est mesh).2),
       mesh') /\
    marked_elements (run r est mesh).1.1.2 =
      let sel := Refinement_of <$>
        filter (selects r (marking_threshold r
                             (GetNorm r (GetLocalErrors est mesh).1 mesh)
                             (GetGlobalNE mesh))
                  (GetLocalErrors est mesh).1 mesh)
               (seqZ 0 (GetNE mesh)) in
      let aniso_flags := (GetAnisotropicFlags (GetLocalErrors est mesh).2 mesh).1 in
      if aniso_estimator r && (0 <? Array_Size aniso_flags)
      then flagged aniso_flags <$> sel else sel.
Proof.
  intros [Hcap Hgoal]. unfold run.
  destruct (Z.leb_spec (max_elements r) (GetGlobalNE mesh)); [lia|].
  rewrite Hgoal. cbv zeta.
  destruct (_ =? 0); eexists _, _; split; reflexivity.
Qed.

(** C2. The call returns [STOP] exactly when the global element count has
    reached [max_elements], or the aggregate error norm is at most
    [total_err_goal], or the reduced count of marked elements is zero;
    otherwise it refines the marked elements with [GeneralRefinement] and
    returns [CONTINUE + REFINED]. *)
Theorem ApplyImpl_STOP_cases (r : ThresholdRefiner) (est : Estimator) (mesh : Mesh) :
  sizes_agree est mesh ->
  STOP <> CONTINUE + REFINED ->
  exists res r' est' mesh',
    ApplyImpl r est mesh = Some (res, r', est', mesh') /\
    let total_err := GetNorm r (GetLocalErrors est mesh).1 mesh in
    let stop :=
      max_elements r <= GetGlobalNE mesh \/
      d_le total_err (total_err_goal r) = true \/
      ReduceInt mesh (Array_Size (marked_elements r')) = 0 in
    (res = STOP <-> stop) /\
    (~ stop ->
       res = CONTINUE + REFINED /\
       mesh' = GeneralRefinement mesh (marked_elements r') (non_conforming r) (nc_limit r)).
Proof.
  intros Hsz Hne. rewrite (ApplyImpl_run r est mesh Hsz). unfold run.
  destruct (Z.leb_spec (max_elements r) (GetGlobalNE mesh)) as [Hcap|Hcap].
  { eexists _, _, _, _. split; [reflexivity|]. cbv zeta. tauto. }
  destruct (d_le _ _) eqn:Hgoal.
  { eexists _, _, _, _. split; [reflexivity|]. cbv zeta. tauto. }
  cbv zeta.
  match goal with
  | |- context [?num =? 0] => destruct (Z.eqb_spec num 0) as [Hnum|Hnum]
  end.
  - eexists _, _, _, _. split; [reflexivity|]. cbn [marked_elements with_bookkeeping].
    tauto.
  - eexists _, _, _, _. split; [reflexivity|]. cbn [marked_elements with_bookkeeping].
    split; [|done]. split; [done|]. intros [?|[?|?]]; [lia|done|done].
Qed.

(** C3. When the call gets past the goal test, the threshold it marks with
    is [max(total_err * total_fraction * num_elements^(-1/p), local_err_goal)]
    for [p < infinity] and [max(total_err * total_fraction, local_err_goal)]
    otherwise, where [total_err] is the norm [GetNorm] of the local errors
    ([Normlp], or [ParNormlp] on a parallel mesh) and [num_elements] the
    global element count. *)
Theorem ApplyImpl_threshold (r : ThresholdRefiner) (est : Estimator) (mesh : Mesh) :
  sizes_agree est mesh ->
  reaches_marking r est mesh ->
  exists res r' est' mesh',
    ApplyImpl r est mesh = Some (res, r', est', mesh') /\
    let local_err := (GetLocalErrors est mesh).1 in
    let p := total_norm_p r in
    let total_err :=
      match pmesh_comm mesh with
      | Some comm => ParNormlp local_err p comm
      | None => Normlp local_err p
      end in
    let num_elements := GetGlobalNE mesh in
    (d_lt p d_infinity = true ->
       threshold r' =
         std_max (d_mul (d_mul total_err (total_fraction r))
                        (d_pow (d_of_long num_elements) (d_div (d_of_long (-1)) p)))
                 (local_err_goal r)) /\
    (d_lt p d_infinity = false ->
       threshold r' = std_max (d_mul total_err (total_fraction r)) (local_err_goal r)).
Proof.
  intros Hsz Hreach. rewrite (ApplyImpl_run r est mesh Hsz).
  destruct (run_reaches_marking r est mesh Hreach) as (res & mesh' & -> & _).
  eexists _, _, _, _. split; [reflexivity|].
  cbn [threshold with_bookkeeping]. unfold marking_threshold, GetNorm.
  split; intros ->; reflexivity.
Qed.

(** C4, amended. When the call gets to the marking loop, it marks, once each,
    exactly the elements whose local error exceeds the threshold and, on a
    nonconforming mesh, whose depth is below [amr_levels] and, when [xRange]
    or [yRange] is set, whose nodal mean lies strictly inside the window or
    whose depth is below the reduced cap, on both axes. On a conforming mesh
    the local error alone decides. *)
Theorem ApplyImpl_marks (r : ThresholdRefiner) (est : Estimator) (mesh : Mesh) :
  sizes_agree est mesh ->
  reaches_marking r est mesh ->
  exists res r' est' mesh',
    ApplyImpl r est mesh = Some (res, r', est', mesh') /\
    NoDup (index <$> marked_elements r') /\
    forall el : Z,
      el ∈ index <$> marked_elements r' <->
      0 <= el < GetNE mesh /\
      exists e, Array_at (GetLocalErrors est mesh).1 el = Some e /\
        d_gt e (threshold r') = true /\
        (Nonconforming mesh = true ->
           GetElementDepth mesh el < amr_levels r /\
           (yRange r = true \/ xRange r = true ->
              ((d_gt (nodal_means mesh el).1 (ymin r) = true /\
                d_lt (nodal_means mesh el).1 (ymax r) = true)
               \/ GetElementDepth mesh el < yRange_levels r) /\
              ((d_gt (nodal_means mesh el).2 (xmin r) = true /\
                d_lt (nodal_means mesh el).2 (xmax r) = true)
               \/ GetElementDepth mesh el < xRange_levels r))).
Proof.
  intros Hsz Hreach. rewrite (ApplyImpl_run r est mesh Hsz).
  destruct (run_reaches_marking r est mesh Hreach) as (res & mesh' & Hrun & Hmarked).
  rewrite Hrun. eexists _, _, _, _. split; [reflexivity|].
  cbn [marked_elements threshold with_bookkeeping]. rewrite Hmarked. cbv zeta.
  set (thr := marking_threshold _ _ _).
  set (local_err := (GetLocalErrors est mesh).1).
  assert (index <$> (if aniso_estimator r &&
      (0 <? Array_Size (GetAnisotropicFlags (GetLocalErrors est mesh).2 mesh).1)
    then flagged (GetAnisotropicFlags (GetLocalErrors est mesh).2 mesh).1 <$>
         (Refinement_of <$> filter (selects r thr local_err mesh) (seqZ 0 (GetNE mesh)))
    else Refinement_of <$> filter (selects r thr local_err mesh) (seqZ 0 (GetNE mesh)))
    = filter (selects r thr local_err mesh) (seqZ 0 (GetNE mesh))) as ->.
  { destruct (_ && _); by rewrite ?index_flagged, index_Refinement_of. }
  split.
  { apply NoDup_filter, NoDup_seqZ. }
  intros el. rewrite list_elem_of_filter, elem_of_seqZ. unfold selects.
  split.
  - intros [Hsel Hel]. split; [lia|].
    destruct (Array_at local_err el) as [e|]; [|done].
    exists e. split; [done|]. apply eligible_true. by apply Is_true_true.
  - intros [Hel (e & -> & He)]. split; [|lia].
    apply Is_true_true, eligible_true. done.
Qed.


(** The four fields that a call writes are not read before they are written. *)
Lemma ApplyImpl_forgets r thr num marked cur_seq est mesh :
  ApplyImpl (with_bookkeeping r thr num marked cur_seq) est mesh = ApplyImpl r est mesh.
Proof. reflexivity. Qed.

(** C10. The call changes the mesh only by the [GeneralRefinement] of its
    [CONTINUE] path: when it returns [STOP] the mesh is the one it was given
    and [num_marked_elements] is zero. It records the sequence number of the
    mesh, and a return at either of the first two tests leaves the threshold
    0 and the marked list empty. The values that [threshold],
    [num_marked_elements], [marked_elements] and [current_sequence] had
    before the call do not matter. *)
Theorem ApplyImpl_bookkeeping (r : ThresholdRefiner) (est : Estimator) (mesh : Mesh) :
  sizes_agree est mesh ->
  STOP <> CONTINUE + REFINED ->
  exists res r' est' mesh',
    ApplyImpl r est mesh = Some (res, r', est', mesh') /\
    current_sequence r' = GetSequence mesh /\
    (mesh' = mesh \/
     res = CONTINUE + REFINED /\
     mesh' = GeneralRefinement mesh (marked_elements r') (non_conforming r) (nc_limit r)) /\
    (res = STOP -> mesh' = mesh /\ num_marked_elements r' = 0) /\
    (max_elements r <= GetGlobalNE mesh \/
     d_le (GetNorm r (GetLocalErrors est mesh).1 mesh) (total_err_goal r) = true ->
     threshold r' = d_of_long 0 /\ marked_elements r' = [] /\ num_marked_elements r' = 0) /\
    (forall thr num marked cur_seq,
       ApplyImpl (with_bookkeeping r thr num marked cur_seq) est mesh
       = ApplyImpl r est mesh).
Proof.
  intros Hsz Hne.
  pose proof (ApplyImpl_run r est mesh Hsz) as Hrun.
  destruct (run r est mesh) as [[[res r'] est'] mesh'] eqn:Hr.
  exists res, r', est', mesh'. split; [done|].
  assert (forall thr num marked cur_seq,
    ApplyImpl (with_bookkeeping r thr num marked cur_seq) est mesh
    = ApplyImpl r est mesh) as Hforget by (intros; apply ApplyImpl_forgets).
  clear Hrun. unfold run in Hr.
  destruct (Z.leb_spec (max_elements r) (GetGlobalNE mesh)) as [Hcap|Hcap].
  { injection Hr as <- <- <- <-. cbn. repeat split; auto. }
  destruct (d_le _ _) eqn:Hgoal.
  { injection Hr as <- <- <- <-. cbn. repeat split; auto. }
  cbv zeta in Hr.
  match type of Hr with
  | context [?num =? 0] => destruct (Z.eqb_spec num 0) as [Hnum|Hnum]
  end; injection Hr as <- <- <- <-;
    cbn [current_sequence num_marked_elements marked_elements threshold with_bookkeeping].
  - split; [done|]. split; [by left|]. split; [done|].
    split; [|done]. intros [?|?]; [lia|congruence].
  - split; [done|]. split; [by right|]. split; [by intros ?|].
    split; [|done]. intros [?|?]; [lia|congruence].
Qed.

(** *** Further properties of the refiner *)

Lemma StronglySorted_seqZ (m n : Z) : StronglySorted Z.lt (seqZ m n).
Proof.
  destruct (Z.le_gt_cases n 0) as [Hn|Hn].
  { rewrite seqZ_nil by done. constructor. }
  rewrite <- (Z2Nat.id n) by lia. generalize (Z.to_nat n) as k. clear n Hn.
  intros k. revert m. induction k as [|k IH]; intros m.
  { rewrite seqZ_nil by done. constructor. }
  rewrite seqZ_cons by lia.
  replace (Z.pred (Z.of_nat (S k))) with (Z.of_nat k) by lia.
  apply StronglySorted_cons. split; [|apply IH].
  apply Forall_seqZ. lia.
Qed.

Lemma StronglySorted_filter_lt (P : Z -> Prop) `{!forall x, Decision (P x)} (l : list Z) :
  StronglySorted Z.lt l -> StronglySorted Z.lt (filter P l).
Proof.
  induction 1 as [|x l Hl IH Hx]; [constructor|].
  rewrite filter_cons. destruct (decide (P x)); [|done].
  apply StronglySorted_cons. split; [|done].
  apply Forall_forall. intros y Hy. apply list_elem_of_filter in Hy as [_ Hy].
  by apply (proj1 (Forall_forall _ _) Hx).
Qed.

(** The marked list of a call that got to the marking loop. *)
Lemma ApplyImpl_selected r est mesh res r' est' mesh' :
  sizes_agree est mesh ->
  reaches_marking r est mesh ->
  ApplyImpl r est mesh = Some (res, r', est', mesh') ->
  index <$> marked_elements r'
  = filter (selects r (threshold r') (GetLocalErrors est mesh).1 mesh)
      (seqZ 0 (GetNE mesh)).
Proof.
  intros Hsz Hreach. rewrite (ApplyImpl_run r est mesh Hsz).
  destruct (run_reaches_marking r est mesh Hreach) as (res0 & mesh0 & Hrun & Hmarked).
  rewrite Hrun. intros [= <- <- <- <-].
  cbn [marked_elements threshold with_bookkeeping]. rewrite Hmarked. cbv zeta.
  destruct (_ && _); by rewrite ?index_flagged, index_Refinement_of.
Qed.

Lemma mark_element_None r thr local_err mesh el marked :
  Array_at local_err el = None ->
  mark_element r thr local_err mesh el marked = None.
Proof.
  intros He. unfold mark_element. rewrite He.
  destruct (nodal_means mesh el). by repeat case_match.
Qed.

Lemma mark_loop_fault r thr local_err mesh (n : nat) (el : Z) marked (k : Z) :
  el <= k < el + Z.of_nat n ->
  Array_at local_err k = None ->
  mark_loop r thr local_err mesh n el marked = None.
Proof.
  revert el marked. induction n as [|n IH]; intros el marked Hk Hnone; [lia|].
  cbn [mark_loop].
  destruct (decide (el = k)) as [->|Hne].
  { by rewrite mark_element_None. }
  destruct (mark_element r thr local_err mesh el marked); [|done]. cbn.
  apply IH; [lia|done].
Qed.

Lemma override_fault aniso_flags marked ref :
  ref ∈ marked ->
  Array_at aniso_flags (index ref) = None ->
  override_ref_types aniso_flags marked = None.
Proof.
  induction marked as [|ref0 rest IH]; intros Hin Hnone.
  { by apply not_elem_of_nil in Hin. }
  cbn [override_ref_types].
  apply elem_of_cons in Hin as [<-|Hin].
  { by rewrite Hnone. }
  destruct (Array_at aniso_flags (index ref0)); [|done]. cbn.
  by rewrite (IH Hin Hnone).
Qed.

(** X5. The marked elements are listed in increasing order of their element
    index. *)
Theorem ApplyImpl_marks_in_order (r : ThresholdRefiner) (est : Estimator) (mesh : Mesh) :
  sizes_agree est mesh ->
  exists res r' est' mesh',
    ApplyImpl r est mesh = Some (res, r', est', mesh') /\
    StronglySorted Z.lt (index <$> marked_elements r').
Proof.
  intros Hsz. pose proof (ApplyImpl_run r est mesh Hsz) as Hrun.
  destruct (run r est mesh) as [[[res r'] est'] mesh'] eqn:Hr.
  exists res, r', est', mesh'. split; [done|].
  destruct (Z.leb_spec (max_elements r) (GetGlobalNE mesh)) as [Hcap|Hcap].
  { unfold run in Hr. rewrite (proj2 (Z.leb_le _ _) Hcap) in Hr.
    injection Hr as <- <- <- <-. constructor. }
  destruct (d_le (GetNorm r (GetLocalErrors est mesh).1 mesh) (total_err_goal r))
    eqn:Hgoal.
  { unfold run in Hr. rewrite (proj2 (Z.leb_gt _ _) Hcap), Hgoal in Hr.
    injection Hr as <- <- <- <-. constructor. }
  rewrite (ApplyImpl_selected r est mesh res r' est' mesh' Hsz (conj Hcap Hgoal) Hrun).
  apply StronglySorted_filter_lt, StronglySorted_seqZ.
Qed.

(** X6. When the vector of local errors has fewer entries than the mesh has
    elements (the condition that [MFEM_ASSERT] excludes), a call that gets to
    the marking loop reads it out of range. *)
Theorem ApplyImpl_short_errors (r : ThresholdRefiner) (est : Estimator) (mesh : Mesh) :
  reaches_marking r est mesh ->
  Array_Size (GetLocalErrors est mesh).1 < GetNE mesh ->
  ApplyImpl r est mesh = None.
Proof.
  intros [Hcap Hgoal] Hshort. unfold ApplyImpl.
  cbn [max_elements with_bookkeeping].
  rewrite (proj2 (Z.leb_gt _ _) Hcap).
  destruct (GetLocalErrors est mesh) as [local_err est1]. cbn [fst snd] in *.
  change (GetNorm (with_bookkeeping r (d_of_long 0) 0 [] (GetSequence mesh)))
    with (GetNorm r).
  cbn [total_err_goal with_bookkeeping]. rewrite Hgoal.
  rewrite (mark_loop_fault _ _ _ _ _ _ _ (Array_Size local_err)); [done| |].
  - unfold Array_Size in *. lia.
  - unfold Array_at, Array_Size. rewrite decide_True by lia.
    apply lookup_ge_None. lia.
Qed.

(** X7. When the flag array of an anisotropic estimator is not empty but
    ends before the index of an element that the marking loop selects, the
    override reads it out of range. *)
Theorem ApplyImpl_short_flags (r : ThresholdRefiner) (est : Estimator) (mesh : Mesh)
  (el : Z) (e : double) :
  Array_Size (GetLocalErrors est mesh).1 = GetNE mesh ->
  reaches_marking r est mesh ->
  aniso_estimator r = true ->
  let local_err := (GetLocalErrors est mesh).1 in
  let aniso_flags := (GetAnisotropicFlags (GetLocalErrors est mesh).2 mesh).1 in
  let thr := marking_threshold r (GetNorm r local_err mesh) (GetGlobalNE mesh) in
  Array_at local_err el = Some e ->
  eligible r thr mesh el e = true ->
  0 < Array_Size aniso_flags <= el ->
  ApplyImpl r est mesh = None.
Proof.
  intros Hsz [Hcap Hgoal] Haniso local_err aniso_flags thr He Hel Hflags.
  subst local_err aniso_flags thr. unfold ApplyImpl.
  cbn [max_elements with_bookkeeping].
  rewrite (proj2 (Z.leb_gt _ _) Hcap).
  destruct (GetLocalErrors est mesh) as [local_err est1]. cbn [fst snd] in *.
  change (GetNorm (with_bookkeeping r (d_of_long 0) 0 [] (GetSequence mesh)))
    with (GetNorm r).
  cbn [total_err_goal with_bookkeeping]. rewrite Hgoal.
  fold (marking_threshold r (GetNorm r local_err mesh) (GetGlobalNE mesh)).
  change (marking_threshold
            (with_bookkeeping r (d_of_long 0) 0 [] (GetSequence mesh)))
    with (marking_threshold r).
  set (thr := marking_threshold r (GetNorm r local_err mesh) (GetGlobalNE mesh)) in *.
  rewrite mark_loop_filter by (intros k Hk; apply Array_at_Some; lia).
  rewrite app_nil_l. cbn [mbind option_bind].
  cbn [aniso_estimator with_bookkeeping]. rewrite Haniso.
  destruct (GetAnisotropicFlags est1 mesh) as [aniso_flags est2]. cbn [fst snd] in *.
  rewrite (proj2 (Z.ltb_lt _ _) (proj1 Hflags)).
  rewrite (override_fault aniso_flags _ (Refinement_of el)); [done| |].
  - apply list_elem_of_fmap_2, list_elem_of_filter. split.
    + unfold selects. change (selects _ _ _ _ el) with
        (match Array_at local_err el with
         | Some e0 => Is_true (eligible r thr mesh el e0) | None => False end).
      rewrite He. by apply Is_true_true.
    + apply elem_of_seqZ. apply Array_at_Some_range in He. lia.
  - cbn. unfold Array_at, Array_Size in *. destruct (decide (0 <= el)); [|done].
    apply lookup_ge_None. lia.
Qed.

(** X8. On a nonconforming mesh whose elements are all at or above the depth
    cap, a call that gets to the marking loop marks nothing; when no other
    worker has marks either, it returns [STOP] and the mesh is not refined. *)
Theorem ApplyImpl_all_at_cap (r : ThresholdRefiner) (est : Estimator) (mesh : Mesh) :
  sizes_agree est mesh ->
  reaches_marking r est mesh ->
  Nonconforming mesh = true ->
  (forall el, 0 <= el < GetNE mesh -> amr_levels r <= GetElementDepth mesh el) ->
  ReduceInt mesh 0 = 0 ->
  exists r' est',
    ApplyImpl r est mesh = Some (STOP, r', est', mesh) /\
    marked_elements r' = [] /\
    num_marked_elements r' = 0.
Proof.
  intros Hsz [Hcap Hgoal] Hnc Hdepth Hred.
  rewrite (ApplyImpl_run r est mesh Hsz). unfold run.
  rewrite (proj2 (Z.leb_gt _ _) Hcap), Hgoal. cbv zeta.
  set (thr := marking_threshold _ _ _).
  assert (filter (selects r thr (GetLocalErrors est mesh).1 mesh) (seqZ 0 (GetNE mesh))
          = []) as ->.
  { apply elem_of_nil_inv. intros el Hel.
    apply list_elem_of_filter in Hel as [Hsel Hel]. apply elem_of_seqZ in Hel.
    unfold selects in Hsel.
    destruct (Array_at (GetLocalErrors est mesh).1 el) as [e|]; [|done].
    apply Is_true_true, eligible_true in Hsel as [_ Hsel].
    destruct (Hsel Hnc) as [Hlt _]. specialize (Hdepth el ltac:(lia)). lia. }
  rewrite !fmap_nil.
  assert ((if aniso_estimator r &&
              (0 <? Array_Size (GetAnisotropicFlags (GetLocalErrors est mesh).2 mesh).1)
           then @nil Refinement else []) = []) as -> by (by destruct (_ && _)).
  change (Array_Size (@nil Refinement)) with 0. rewrite Hred. cbn [Z.eqb].
  eexists _, _. split; [reflexivity|]. by cbn.
Qed.

(** X9. On a nonconforming mesh the call returns and the marking rule reads
    axis by axis (the window of an axis under the flag of that axis) whenever
    the reduced cap of an axis whose flag is off lies above the depth of
    every element, as the constructor's cap does. *)
Theorem marks_as_specified_nonconforming (r : ThresholdRefiner) (est : Estimator)
  (mesh : Mesh) :
  sizes_agree est mesh ->
  Nonconforming mesh = true ->
  (yRange r = false ->
     forall el, 0 <= el < GetNE mesh -> GetElementDepth mesh el < yRange_levels r) ->
  (xRange r = false ->
     forall el, 0 <= el < GetNE mesh -> GetElementDepth mesh el < xRange_levels r) ->
  is_Some (ApplyImpl r est mesh) /\ marks_as_specified r est mesh.
Proof.
  intros Hsz Hnc Hy Hx. split; [by rewrite (ApplyImpl_run r est mesh Hsz)|].
  intros Hreach res r' est' mesh' Hrun el.
  rewrite (ApplyImpl_selected r est mesh res r' est' mesh' Hsz Hreach Hrun).
  rewrite list_elem_of_filter, elem_of_seqZ. unfold selects.
  split.
  - intros [Hsel Hel]. split; [lia|].
    destruct (Array_at (GetLocalErrors est mesh).1 el) as [e|]; [|done].
    exists e. split; [done|].
    apply Is_true_true, eligible_true in Hsel as [Hgt Hsel].
    destruct (Hsel Hnc) as [Hdepth Hwin]. split; [done|]. split; [done|].
    split; intros Hflag; apply Hwin; auto.
  - intros [Hel (e & -> & Hgt & Hdepth & Hwy & Hwx)]. split; [|lia].
    apply Is_true_true, eligible_true. split; [done|]. intros _. split; [done|].
    intros _. split.
    + destruct (yRange r) eqn:Hfy; [by apply Hwy|]. right. apply Hy; [done|lia].
    + destruct (xRange r) eqn:Hfx; [by apply Hwx|]. right. apply Hx; [done|lia].
Qed.

Section Resetting.

(** [estimator.Reset()]. *)
Variable estimator_Reset : Estimator -> Estimator.

(** [ThresholdRefiner::Reset]; the marked list is left as it is (the source
    notes that clearing it is not necessary). *)
Definition Reset (r : ThresholdRefiner) (est : Estimator)
  : ThresholdRefiner * Estimator :=
  (with_bookkeeping r (threshold r) 0 (marked_elements r) (-1), estimator_Reset est).

(** X10. [Reset] changes what the operator reports ([num_marked_elements]
    is 0, [current_sequence] is -1) and leaves the old marked list in place;
    this cannot be seen by the next call, which behaves as on the operator
    before [Reset], with the estimator reset. *)
Theorem Reset_then_ApplyImpl (r : ThresholdRefiner) (est : Estimator) (mesh : Mesh) :
  ApplyImpl (Reset r est).1 (Reset r est).2 mesh = ApplyImpl r (estimator_Reset est) mesh /\
  num_marked_elements (Reset r est).1 = 0 /\
  current_sequence (Reset r est).1 = -1 /\
  marked_elements (Reset r est).1 = marked_elements r.
Proof. repeat split. Qed.

End Resetting.

End WithLibrary.
End Refiner.

(** ** ThresholdDerefiner *)

Module Derefiner.
Section WithLibrary.

Context {codes : ActionCodes}.
Context {double : Type} {dbl : DoubleOps double}.
Context {Mesh Estimator Comm : Type} {lib : MeshLibrary double Mesh Estimator Comm}.

Record ThresholdDerefiner : Type := {
  total_norm_p : double;
  total_fraction : double;
  threshold : double;
  nc_limit : Z;
  op : Z
}.

(** [ThresholdDerefiner::GetNorm]. *)
Definition GetNorm (d : ThresholdDerefiner) (local_err : list double) (mesh : Mesh)
  : double :=
  match pmesh_comm mesh with
  | Some comm => ParNormlp local_err (total_norm_p d) comm
  | None => Normlp local_err (total_norm_p d)
  end.

(** [ThresholdDerefiner::ApplyImpl]; the operator itself is not written. *)
Definition ApplyImpl (d : ThresholdDerefiner) (est : Estimator) (mesh : Mesh)
  : Z * Estimator * Mesh :=
  if Conforming mesh then (NONE, est, mesh) else
  let '(local_err, est) := GetLocalErrors est mesh in
  let total_err := GetNorm d local_err mesh in
  let true_threshold := std_max (d_mul total_err (total_fraction d)) (threshold d) in
  let '(derefs, mesh) :=
    DerefineByError mesh local_err true_threshold (nc_limit d) (op d) in
  (if derefs then CONTINUE + DEREFINED else NONE, est, mesh).

(** C6. On a conforming mesh the call returns [NONE] with the mesh and the
    estimator untouched. On a nonconforming mesh it calls [DerefineByError]
    with the threshold [max(total_err * total_fraction, threshold)], and
    returns [CONTINUE + DEREFINED] exactly when that call reports a
    coarsening, [NONE] otherwise. *)
Theorem ApplyImpl_derefines (d : ThresholdDerefiner) (est : Estimator) (mesh : Mesh) :
  NONE <> CONTINUE + DEREFINED ->
  (Conforming mesh = true -> ApplyImpl d est mesh = (NONE, est, mesh)) /\
  (Conforming mesh = false ->
     let local_err := (GetLocalErrors est mesh).1 in
     let total_err := GetNorm d local_err mesh in
     let call :=
       DerefineByError mesh local_err
         (std_max (d_mul total_err (total_fraction d)) (threshold d))
         (nc_limit d) (op d) in
     exists res,
       ApplyImpl d est mesh = (res, (GetLocalErrors est mesh).2, call.2) /\
       (res = CONTINUE + DEREFINED <-> call.1 = true) /\
       (call.1 = false -> res = NONE)).
Proof.
  intros Hne. unfold ApplyImpl. split; intros ->; [done|].
  destruct (GetLocalErrors est mesh) as [local_err est1]. cbn [fst snd].
  destruct (DerefineByError _ _ _ _ _) as [[|] mesh1]; cbn [fst snd].
  - eexists. split; [reflexivity|]. by split.
  - eexists. split; [reflexivity|]. split; [|done]. split; [done|discriminate].
Qed.

End WithLibrary.
End Derefiner.

(** ** Rebalancer *)

Module Rebalancer.
Section WithLibrary.

Context {codes : ActionCodes}.
Context {double Mesh Estimator Comm : Type}.
Context {lib : MeshLibrary double Mesh Estimator Comm}.

(** [pmesh->Rebalance()]. *)
Variable Rebalance : Mesh -> Mesh.

(** [Rebalancer::ApplyImpl]; without MPI, or on a mesh that is not a
    [ParMesh], only the final [return NONE] is left. *)
Definition ApplyImpl (mesh : Mesh) : Z * Mesh :=
  match pmesh_comm mesh with
  | Some _ =>
      if Nonconforming mesh then (CONTINUE + REBALANCED, Rebalance mesh)
      else (NONE, mesh)
  | None => (NONE, mesh)
  end.

(** X11. On a nonconforming parallel mesh the rebalancer rebalances the mesh
    and answers [CONTINUE + REBALANCED]; on every other mesh it answers
    [NONE] and returns the mesh as it was given. The two answers tell the
    two cases apart. *)
Theorem ApplyImpl_rebalances (mesh : Mesh) :
  NONE <> CONTINUE + REBALANCED ->
  (is_Some (pmesh_comm mesh) -> Nonconforming mesh = true ->
     ApplyImpl mesh = (CONTINUE + REBALANCED, Rebalance mesh)) /\
  (pmesh_comm mesh = None \/ Nonconforming mesh = false ->
     ApplyImpl mesh = (NONE, mesh)) /\
  ((ApplyImpl mesh).1 = CONTINUE + REBALANCED <->
     is_Some (pmesh_comm mesh) /\ Nonconforming mesh = true).
Proof.
  intros Hne. unfold ApplyImpl.
  destruct (pmesh_comm mesh) as [comm|]; [destruct (Nonconforming mesh)|]; cbn.
  - split; [done|]. split; [by intros [?|?]|]. split; [by eauto|done].
  - split; [done|]. split; [done|]. split; [done|]. by intros [_ ?].
  - split; [by intros [? ?]|]. split; [done|]. split; [done|].
    intros [[? ?] _]. done.
Qed.

End WithLibrary.
End Rebalancer.

(** ** A serial run on IEEE doubles

    The parameters are instantiated with the binary64 floats of the kernel
    and a small mesh, to run the operators on concrete data. *)

Module OnFloats.

Definition float_of_Z (z : Z) : float :=
  if z <? 0 then PrimFloat.opp (PrimFloat.of_uint63 (Uint63.of_Z (- z)))
  else PrimFloat.of_uint63 (Uint63.of_Z z).

(** [std::pow] on the exponents [0], [-1] and [-1/2] (all that the runs
    below need); other exponents are not interpreted. *)
Definition pow_at (x y : float) : float :=
  if PrimFloat.eqb y 0%float then 1%float
  else if PrimFloat.eqb y (-1)%float then PrimFloat.div 1%float x
  else if PrimFloat.eqb y (-0.5)%float then PrimFloat.div 1%float (PrimFloat.sqrt x)
  else nan.

Definition float_ops : DoubleOps float := {|
  d_of_long := float_of_Z;
  d_add := PrimFloat.add;
  d_mul := PrimFloat.mul;
  d_div := PrimFloat.div;
  d_lt := PrimFloat.ltb;
  d_le := PrimFloat.leb;
  d_pow := pow_at;
  d_infinity := infinity;
  d_max_value := 0x1.fffffffffffffp+1023%float;
  d_lowest := (-0x1.fffffffffffffp+1023)%float
|}.

(** [Vector::Normlp] for [p = 1], [p = 2] and [p = infinity()]. *)
Definition Normlp_at (v : list float) (p : float) : float :=
  if PrimFloat.eqb p 1%float then
    fold_left (fun acc x => PrimFloat.add acc (PrimFloat.abs x)) v 0%float
  else if PrimFloat.eqb p 2%float then
    PrimFloat.sqrt (fold_left (fun acc x => PrimFloat.add acc (PrimFloat.mul x x)) v 0%float)
  else if PrimFloat.ltb p infinity then nan
  else
    fold_left (fun acc x => @std_max float float_ops (PrimFloat.abs x) acc) v 0%float.

Record Element : Type := {
  dofs : list Z;
  depth : Z
}.

Record SmallMesh : Type := {
  sequence_number : Z;
  has_ncmesh : bool;
  elements : list Element;
  nodes : list (float * float * float)
}.

Record Estimates : Type := {
  errors : list float;
  flags : list Z;
  anisotropic : bool
}.

Definition child (e : Element) : Element := {| dofs := dofs e; depth := depth e + 1 |}.

(** A refinement that bisects every marked element. *)
Definition bisect_marked (mesh : SmallMesh) (marked : list Refinement)
  (non_conforming nc_limit : Z) : SmallMesh := {|
  sequence_number := sequence_number mesh + 1;
  has_ncmesh := has_ncmesh mesh;
  elements :=
    concat (imap (fun i e =>
                    if bool_decide (Z.of_nat i ∈ index <$> marked)
                    then [child e; child e] else [e])
                 (elements mesh));
  nodes := nodes mesh
|}.

(** A coarsening that drops the last element when every error is below the
    threshold and more than one element is left. *)
Definition drop_last (mesh : SmallMesh) (errs : list float) (thr : float)
  (nc_limit op : Z) : bool * SmallMesh :=
  if forallb (fun e => PrimFloat.ltb e thr) errs && (1 <? Array_Size (elements mesh))
  then (true, {| sequence_number := sequence_number mesh + 1;
                 has_ncmesh := has_ncmesh mesh;
                 elements := removelast (elements mesh);
                 nodes := nodes mesh |})
  else (false, mesh).

Definition small_lib : MeshLibrary float SmallMesh Estimates Empty_set := {|
  GetSequence := sequence_number;
  GetGlobalNE := fun mesh => Array_Size (elements mesh);
  GetNE := fun mesh => Array_Size (elements mesh);
  Nonconforming := has_ncmesh;
  GetElementDofs := fun mesh el => default [] (dofs <$> Array_at (elements mesh) el);
  GetNode := fun mesh i => default (0, 0, 0)%float (Array_at (nodes mesh) i);
  GetElementDepth := fun mesh el => default 0 (depth <$> Array_at (elements mesh) el);
  ReduceInt := fun _ value => value;
  GeneralRefinement := bisect_marked;
  DerefineByError := drop_last;
  pmesh_comm := fun _ => None;
  Refinement_default_type := 7;
  GetLocalErrors := fun est _ => (errors est, est);
  is_anisotropic := anisotropic;
  GetAnisotropicFlags := fun est _ => (flags est, est);
  Normlp := Normlp_at;
  ParNormlp := fun _ _ (comm : Empty_set) => match comm with end
|}.

#[local] Existing Instance mfem_codes.
#[local] Existing Instance float_ops.
#[local] Existing Instance small_lib.

(** Three elements in a row on the x axis, of depths 0, 1 and 2. *)
Definition row_mesh (nc : bool) : SmallMesh := {|
  sequence_number := 0;
  has_ncmesh := nc;
  elements := [ {| dofs := [0; 1]; depth := 0 |};
                {| dofs := [1; 2]; depth := 1 |};
                {| dofs := [2; 3]; depth := 2 |} ];
  nodes := [ (0, 0, 0); (1, 0, 0); (2, 0, 0); (3, 0, 0) ]%float
|}.

Definition row_errors (aniso_flags : list Z) : Estimates := {|
  errors := [0.125; 1; 0.75]%float;
  flags := aniso_flags;
  anisotropic := true
|}.

(** The default operator with the depth cap [levels]. *)
Definition capped (est : Estimates) (levels : Z) : Refiner.ThresholdRefiner := {|
  Refiner.aniso_estimator := is_anisotropic est;
  Refiner.total_norm_p := infinity;
  Refiner.total_err_goal := 0%float;
  Refiner.total_fraction := 0.5%float;
  Refiner.local_err_goal := 0%float;
  Refiner.max_elements := LONG_MAX;
  Refiner.amr_levels := levels;
  Refiner.xRange_levels := LONG_MAX;
  Refiner.xRange := false;
  Refiner.yRange_levels := LONG_MAX;
  Refiner.yRange := false;
  Refiner.xmax := 0x1.fffffffffffffp+1023%float;
  Refiner.ymax := 0x1.fffffffffffffp+1023%float;
  Refiner.xmin := (-0x1.fffffffffffffp+1023)%float;
  Refiner.ymin := (-0x1.fffffffffffffp+1023)%float;
  Refiner.threshold := 0%float;
  Refiner.num_marked_elements := 0;
  Refiner.marked_elements := [];
  Refiner.current_sequence := -1;
  Refiner.non_conforming := -1;
  Refiner.nc_limit := 0
|}.

(** One unrefined element, in a conforming mesh. *)
Definition single_mesh : SmallMesh := {|
  sequence_number := 0;
  has_ncmesh := false;
  elements := [ {| dofs := [0; 1]; depth := 0 |} ];
  nodes := [ (0, 0, 0); (1, 0, 0) ]%float
|}.

Definition single_error : Estimates := {|
  errors := [1%float];
  flags := [];
  anisotropic := false
|}.

Definition coarsener : Derefiner.ThresholdDerefiner := {|
  Derefiner.total_norm_p := infinity;
  Derefiner.total_fraction := 0.5%float;
  Derefiner.threshold := 2%float;
  Derefiner.nc_limit := 0;
  Derefiner.op := 1
|}.

Example capped_is_default (est : Estimates) :
  capped est LONG_MAX = Refiner.new_ThresholdRefiner est.
Proof. reflexivity. Qed.

(** On the nonconforming row with cap 2 the threshold is [1 * 0.5]; elements
    1 and 2 exceed it, and element 2 is at the cap: element 1 alone is
    marked, with its flag. *)
Example row_run :
  Refiner.ApplyImpl (capped (row_errors [1; 2; 3]) 2) (row_errors [1; 2; 3]) (row_mesh true)
  = Some (5,
          Refiner.with_bookkeeping (capped (row_errors [1; 2; 3]) 2) 0.5%float 1
            [ {| index := 1; ref_type := 2 |} ] 0,
          row_errors [1; 2; 3],
          bisect_marked (row_mesh true) [ {| index := 1; ref_type := 2 |} ] (-1) 0).
Proof. vm_compute. reflexivity. Qed.

(** The same row as a conforming mesh: the cap is not consulted, and
    element 2 is marked as well. *)
Example row_run_conforming :
  (fun out => (index <$> Refiner.marked_elements out.1.1.2)) <$>
    Refiner.ApplyImpl (capped (row_errors []) 2) (row_errors []) (row_mesh false)
  = Some [1; 2].
Proof. vm_compute. reflexivity. Qed.

Lemma row_sizes_agree (aniso_flags : list Z) :
  aniso_flags = [] \/ aniso_flags = [1; 2; 3] ->
  forall nc, Refiner.sizes_agree (row_errors aniso_flags) (row_mesh nc).
Proof.
  intros Hf nc. split; [reflexivity|]. cbn.
  destruct Hf as [-> | ->]; [by left|by right].
Defined.

Lemma row_reaches_marking (aniso_flags : list Z) (levels : Z) (nc : bool) :
  Refiner.reaches_marking (capped (row_errors aniso_flags) levels)
    (row_errors aniso_flags) (row_mesh nc).
Proof. split; [reflexivity|]. vm_compute. reflexivity. Defined.

Lemma mfem_STOP_apart : @STOP mfem_codes <> @CONTINUE mfem_codes + @REFINED mfem_codes.
Proof. discriminate. Defined.

Lemma ApplyImpl_STOP_cases_witness :
  Refiner.sizes_agree (row_errors [1; 2; 3]) (row_mesh true) /\
  STOP <> CONTINUE + REFINED /\
  exists out, Refiner.ApplyImpl (capped (row_errors [1; 2; 3]) 2)
                (row_errors [1; 2; 3]) (row_mesh true) = Some out.
Proof.
  pose proof (row_sizes_agree [1; 2; 3] (or_intror eq_refl) true) as Hsz.
  split; [exact Hsz|]. split; [exact mfem_STOP_apart|].
  destruct (Refiner.ApplyImpl_STOP_cases (capped (row_errors [1; 2; 3]) 2)
              (row_errors [1; 2; 3]) (row_mesh true) Hsz mfem_STOP_apart)
    as (res & r' & est' & mesh' & Hrun & _).
  by exists (res, r', est', mesh').
Defined.

Lemma ApplyImpl_threshold_witness :
  Refiner.reaches_marking (capped (row_errors [1; 2; 3]) 2)
    (row_errors [1; 2; 3]) (row_mesh true) /\
  exists out, Refiner.ApplyImpl (capped (row_errors [1; 2; 3]) 2)
                (row_errors [1; 2; 3]) (row_mesh true) = Some out /\
              Refiner.threshold out.1.1.2 = 0.5%float.
Proof.
  split; [apply row_reaches_marking|].
  destruct (Refiner.ApplyImpl_threshold (capped (row_errors [1; 2; 3]) 2)
              (row_errors [1; 2; 3]) (row_mesh true)
              (row_sizes_agree [1; 2; 3] (or_intror eq_refl) true)
              (row_reaches_marking [1; 2; 3] 2 true))
    as (res & r' & est' & mesh' & Hrun & _ & Hinf).
  exists (res, r', est', mesh'). split; [exact Hrun|].
  cbn [fst snd]. rewrite Hinf by reflexivity. vm_compute. reflexivity.
Defined.

Lemma ApplyImpl_marks_witness :
  exists out, Refiner.ApplyImpl (capped (row_errors [1; 2; 3]) 2)
                (row_errors [1; 2; 3]) (row_mesh true) = Some out /\
              NoDup (index <$> Refiner.marked_elements out.1.1.2).
Proof.
  destruct (Refiner.ApplyImpl_marks (capped (row_errors [1; 2; 3]) 2)
              (row_errors [1; 2; 3]) (row_mesh true)
              (row_sizes_agree [1; 2; 3] (or_intror eq_refl) true)
              (row_reaches_marking [1; 2; 3] 2 true))
    as (res & r' & est' & mesh' & Hrun & Hnodup & _).
  by exists (res, r', est', mesh').
Defined.


Lemma ApplyImpl_bookkeeping_witness :
  exists out, Refiner.ApplyImpl (capped (row_errors []) 0) (row_errors []) (row_mesh true)
              = Some out /\
              Refiner.current_sequence out.1.1.2 = 0.
Proof.
  destruct (Refiner.ApplyImpl_bookkeeping (capped (row_errors []) 0)
              (row_errors []) (row_mesh true)
              (row_sizes_agree [] (or_introl eq_refl) true) mfem_STOP_apart)
    as (res & r' & est' & mesh' & Hrun & Hseq & _).
  by exists (res, r', est', mesh').
Defined.

(** With the cap 0 on the nonconforming row nothing can be marked: the call
    stops and leaves the mesh alone. *)
Example row_run_cap_0 :
  Refiner.ApplyImpl (capped (row_errors []) 0) (row_errors []) (row_mesh true)
  = Some (2,
          Refiner.with_bookkeeping (capped (row_errors []) 0) 0.5%float 0 [] 0,
          row_errors [], row_mesh true).
Proof. vm_compute. reflexivity. Qed.

Example single_run :
  Refiner.ApplyImpl (capped single_error 0) single_error single_mesh
  = Some (5,
          Refiner.with_bookkeeping (capped single_error 0) 0.5%float 1
            [ {| index := 0; ref_type := 7 |} ] 0,
          single_error,
          bisect_marked single_mesh [ {| index := 0; ref_type := 7 |} ] (-1) 0).
Proof. vm_compute. reflexivity. Qed.

(** C4, as stated, fails on a conforming mesh: with the depth cap 0 the
    element of depth 0 is marked. *)
Lemma marks_as_specified_fails :
  ~ Refiner.marks_as_specified (capped single_error 0) single_error single_mesh.
Proof.
  intros Hspec.
  assert (Refiner.reaches_marking (capped single_error 0) single_error single_mesh)
    as Hreach by (split; [reflexivity|vm_compute; reflexivity]).
  pose proof (Hspec Hreach _ _ _ _ single_run 0) as [Hmarked _].
  destruct Hmarked as (_ & e & _ & _ & Hdepth & _).
  - cbn. left.
  - vm_compute in Hdepth. discriminate Hdepth.
Qed.

Lemma mfem_NONE_apart : @NONE mfem_codes <> @CONTINUE mfem_codes + @DEREFINED mfem_codes.
Proof. discriminate. Defined.

Example coarsen_row :
  Derefiner.ApplyImpl coarsener (row_errors []) (row_mesh true)
  = (9, row_errors [], (drop_last (row_mesh true) [0.125; 1; 0.75]%float 2%float 0 1).2).
Proof. vm_compute. reflexivity. Qed.

Lemma ApplyImpl_derefines_witness :
  NONE <> CONTINUE + DEREFINED /\
  Derefiner.ApplyImpl coarsener (row_errors []) (row_mesh false)
  = (0, row_errors [], row_mesh false).
Proof.
  split; [exact mfem_NONE_apart|].
  apply (Derefiner.ApplyImpl_derefines coarsener (row_errors []) (row_mesh false)
           mfem_NONE_apart).
  reflexivity.
Defined.

(** *** Runs at the edges *)

(** One error only, for the three elements of the row. *)
Definition short_errors : Estimates := {|
  errors := [1%float];
  flags := [];
  anisotropic := false
|}.

Example short_errors_run :
  Refiner.ApplyImpl (capped short_errors 2) short_errors (row_mesh true) = None.
Proof. vm_compute. reflexivity. Qed.

Lemma row_depths (P : Z -> Prop) :
  P 0 -> P 1 -> P 2 ->
  forall el, 0 <= el < GetNE (row_mesh true) -> P (GetElementDepth (row_mesh true) el).
Proof.
  intros P0 P1 P2 el Hel. change (GetNE (row_mesh true)) with 3 in Hel.
  assert (el = 0 \/ el = 1 \/ el = 2) as [-> | [-> | ->]] by lia; assumption.
Defined.

Lemma ApplyImpl_marks_in_order_witness :
  exists out, Refiner.ApplyImpl (capped (row_errors []) LONG_MAX) (row_errors [])
                (row_mesh false) = Some out /\
              StronglySorted Z.lt (index <$> Refiner.marked_elements out.1.1.2).
Proof.
  destruct (Refiner.ApplyImpl_marks_in_order (capped (row_errors []) LONG_MAX)
              (row_errors []) (row_mesh false)
              (row_sizes_agree [] (or_introl eq_refl) false))
    as (res & r' & est' & mesh' & Hrun & Hsorted).
  by exists (res, r', est', mesh').
Defined.

Lemma ApplyImpl_short_errors_witness :
  Array_Size (GetLocalErrors short_errors (row_mesh true)).1 < GetNE (row_mesh true) /\
  Refiner.ApplyImpl (capped short_errors 2) short_errors (row_mesh true) = None.
Proof.
  split; [reflexivity|].
  apply Refiner.ApplyImpl_short_errors.
  - split; [reflexivity|]. vm_compute. reflexivity.
  - reflexivity.
Defined.

Lemma ApplyImpl_short_flags_witness :
  Refiner.ApplyImpl (capped (row_errors [4]) 2) (row_errors [4]) (row_mesh true) = None.
Proof.
  apply (Refiner.ApplyImpl_short_flags (capped (row_errors [4]) 2) (row_errors [4])
           (row_mesh true) 1 1%float).
  - reflexivity.
  - apply row_reaches_marking.
  - reflexivity.
  - reflexivity.
  - vm_compute. reflexivity.
  - split; [reflexivity|]. by vm_compute.
Defined.

Lemma ApplyImpl_all_at_cap_witness :
  exists r' est',
    Refiner.ApplyImpl (capped (row_errors []) 0) (row_errors []) (row_mesh true)
    = Some (2, r', est', row_mesh true).
Proof.
  destruct (Refiner.ApplyImpl_all_at_cap (capped (row_errors []) 0) (row_errors [])
              (row_mesh true)
              (row_sizes_agree [] (or_introl eq_refl) true)
              (row_reaches_marking [] 0 true) eq_refl)
    as (r' & est' & Hrun & _).
  - apply (row_depths (fun d => 0 <= d)); by vm_compute.
  - reflexivity.
  - by exists r', est'.
Defined.

Lemma marks_as_specified_nonconforming_witness :
  is_Some (Refiner.ApplyImpl (capped (row_errors []) 2) (row_errors []) (row_mesh true)) /\
  Refiner.marks_as_specified (capped (row_errors []) 2) (row_errors []) (row_mesh true).
Proof.
  apply Refiner.marks_as_specified_nonconforming.
  - apply (row_sizes_agree [] (or_introl eq_refl) true).
  - reflexivity.
  - intros _. apply (row_depths (fun d => d < LONG_MAX)); reflexivity.
  - intros _. apply (row_depths (fun d => d < LONG_MAX)); reflexivity.
Defined.

Lemma mfem_NONE_apart_REBALANCED :
  @NONE mfem_codes <> @CONTINUE mfem_codes + @REBALANCED mfem_codes.
Proof. discriminate. Defined.

(** The row mesh as the [ParMesh] of a run with a single worker. *)
Definition one_worker_lib : MeshLibrary float SmallMesh Estimates unit := {|
  GetSequence := sequence_number;
  GetGlobalNE := fun mesh => Array_Size (elements mesh);
  GetNE := fun mesh => Array_Size (elements mesh);
  Nonconforming := has_ncmesh;
  GetElementDofs := fun mesh el => default [] (dofs <$> Array_at (elements mesh) el);
  GetNode := fun mesh i => default (0, 0, 0)%float (Array_at (nodes mesh) i);
  GetElementDepth := fun mesh el => default 0 (depth <$> Array_at (elements mesh) el);
  ReduceInt := fun _ value => value;
  GeneralRefinement := bisect_marked;
  DerefineByError := drop_last;
  pmesh_comm := fun _ => Some tt;
  Refinement_default_type := 7;
  GetLocalErrors := fun est _ => (errors est, est);
  is_anisotropic := anisotropic;
  GetAnisotropicFlags := fun est _ => (flags est, est);
  Normlp := Normlp_at;
  ParNormlp := fun v p _ => Normlp_at v p
|}.

(** With one worker a rebalance moves no element; the mesh only counts it in
    its sequence number. *)
Definition renumbered (mesh : SmallMesh) : SmallMesh := {|
  sequence_number := sequence_number mesh + 1;
  has_ncmesh := has_ncmesh mesh;
  elements := elements mesh;
  nodes := nodes mesh
|}.

Example rebalance_serial :
  Rebalancer.ApplyImpl (lib := small_lib) renumbered (row_mesh true) = (0, row_mesh true).
Proof. reflexivity. Qed.

Example rebalance_conforming :
  Rebalancer.ApplyImpl (lib := one_worker_lib) renumbered (row_mesh false)
  = (0, row_mesh false).
Proof. reflexivity. Qed.

Lemma ApplyImpl_rebalances_witness :
  Rebalancer.ApplyImpl (lib := one_worker_lib) renumbered (row_mesh true)
  = (13, renumbered (row_mesh true)).
Proof.
  apply (Rebalancer.ApplyImpl_rebalances (lib := one_worker_lib) renumbered (row_mesh true)
           mfem_NONE_apart_REBALANCED).
  - by exists tt.
  - reflexivity.
Defined.

End OnFloats.

(** ** The SimpleSaddle test system

    The saddle-point system [[A B^T; B 0] [x; lambda] = [f; g]] of the
    constrained-solver unit test. The fixture computes in binary64; whether
    the values it stores solve the system is a question about the rationals
    that these doubles denote. *)

Module Saddle.

(** The rational that a finite double denotes, in lowest terms; infinities
    and NaN denote none. *)
Definition value (f : float) : option Q :=
  match Prim2SF f with
  | S754_zero _ => Some 0%Q
  | S754_finite s m e =>
      let magnitude :=
        if 0 <=? e then (Z.pos m * 2 ^ e # 1)%Q
        else (Z.pos m # Pos.pow 2 (Z.to_pos (- e)))%Q in
      Some (Qred (if s then Qopp magnitude else magnitude))
  | S754_infinity _ => None
  | S754_nan => None
  end.

(** The double [f] denotes the rational [q]. *)
Definition denotes (f : float) (q : Q) : Prop :=
  exists q', value f = Some q' /\ (q' == q)%Q.

(** [SparseMatrix], as the entries that [Add] has been given. *)
Record SparseMatrix : Type := {
  height : Z;
  width : Z;
  entries : list (Z * Z * float)
}.

Definition SparseMatrix_new (h w : Z) : SparseMatrix :=
  {| height := h; width := w; entries := [] |}.

(** [M.Add(i, j, val)]. *)
Definition Add (i j : Z) (val : float) (M : SparseMatrix) : SparseMatrix :=
  {| height := height M; width := width M; entries := entries M ++ [(i, j, val)] |}.

(** The entry [(i, j)] of the finalized matrix: the sum of what was added
    there. *)
Definition Elem (M : SparseMatrix) (i j : Z) : float :=
  fold_left
    (fun acc '(r, c, val) => if (r =? i) && (c =? j) then PrimFloat.add acc val else acc)
    (entries M) 0%float.

Definition Vector : Type := list float.

(** The members of [SimpleSaddle] that the reference solution involves
    ([hA] is [A] again; [sol] and [lambda] receive the solvers' output). *)
Record SimpleSaddle : Type := {
  A : SparseMatrix;
  B : SparseMatrix;
  rhs : Vector;
  dualrhs : Vector;
  truex : float;
  truey : float;
  truelambda : float
}.

(** The constructor [SimpleSaddle(alpha, beta)]. *)
Definition SimpleSaddle_new (alpha beta : float) : SimpleSaddle := {|
  A := Add 1 1 1%float (Add 0 0 1%float (SparseMatrix_new 2 2));
  B := Add 0 1 1%float (Add 0 0 1%float (SparseMatrix_new 1 2));
  rhs := [alpha; beta];
  dualrhs := [0%float];
  truex := PrimFloat.sub (PrimFloat.mul 0.5 alpha) (PrimFloat.mul 0.5 beta);
  truey := PrimFloat.add (PrimFloat.mul (-0.5) alpha) (PrimFloat.mul 0.5 beta);
  truelambda := PrimFloat.mul 0.5 (PrimFloat.add alpha beta)
|}.

(** [SimpleSaddle::SetConstraintRHS]; [dualrhs(0)] needs a first entry. *)
Definition SetConstraintRHS (dualrhs_ : Vector) (s : SimpleSaddle)
  : option SimpleSaddle :=
  g ← Array_at dualrhs_ 0;
  Some {| A := A s; B := B s; rhs := rhs s;
          dualrhs := dualrhs_;
          truex := PrimFloat.add (truex s) (PrimFloat.mul 0.5 g);
          truey := PrimFloat.add (truey s) (PrimFloat.mul 0.5 g);
          truelambda := PrimFloat.sub (truelambda s) (PrimFloat.mul 0.5 g) |}.

(** *** The system over the rationals *)

Local Open Scope Q_scope.

Definition exact_vector (v : Vector) : option (list Q) := mapM value v.

(** The rows of a matrix, entry by entry. *)
Definition exact_rows (M : SparseMatrix) : option (list (list Q)) :=
  mapM (fun i => mapM (fun j => value (Elem M i j)) (seqZ 0 (width M)))
       (seqZ 0 (height M)).

Definition dot (u v : list Q) : Q := foldr Qplus 0 (zip_with Qmult u v).

Definition add_vec (u v : list Q) : list Q := zip_with Qplus u v.

Definition scale (c : Q) (v : list Q) : list Q := Qmult c <$> v.

(** [M x] and [M^T lambda], for the rows of a matrix with [w] columns. *)
Definition times (rows : list (list Q)) (x : list Q) : list Q :=
  (fun row => dot row x) <$> rows.

Definition transpose_times (w : nat) (rows : list (list Q)) (lambda : list Q)
  : list Q :=
  foldr (fun '(row, l) acc => add_vec (scale l row) acc) (replicate w 0)
        (zip rows lambda).

Definition eq_vec (u v : list Q) : Prop := Forall2 Qeq u v.

(** [(x, lambda)] solves the saddle-point system that [s] stores. *)
Definition solves (s : SimpleSaddle) (x lambda : list Q) : Prop :=
  match exact_rows (A s), exact_rows (B s), exact_vector (rhs s),
        exact_vector (dualrhs s) with
  | Some A', Some B', Some f, Some g =>
      length x = Z.to_nat (width (A s)) /\
      length lambda = Z.to_nat (height (B s)) /\
      eq_vec (add_vec (times A' x) (transpose_times (length x) B' lambda)) f /\
      eq_vec (times B' x) g
  | _, _, _, _ => False
  end.

(** The stored reference values denote a solution of the stored system. *)
Definition reference_solves (s : SimpleSaddle) : Prop :=
  exists x y l : Q,
    value (truex s) = Some x /\ value (truey s) = Some y /\
    value (truelambda s) = Some l /\
    solves s [x; y] [l].

(** The three doubles denote the three rationals. *)
Definition denote3 (fx fy fl : float) (x y l : Q) : Prop :=
  denotes fx x /\ denotes fy y /\ denotes fl l.

(** *** Properties *)

Lemma solves_components (alpha beta g : float) (a b c x y l : Q) (s : SimpleSaddle) :
  A s = A (SimpleSaddle_new alpha beta) ->
  B s = B (SimpleSaddle_new alpha beta) ->
  rhs s = [alpha; beta] ->
  dualrhs s = [g] ->
  value alpha = Some a -> value beta = Some b -> value g = Some c ->
  solves s [x; y] [l] <-> (x + l == a /\ y + l == b /\ x + y == c).
Proof.
  intros HA HB Hf Hg Ha Hb Hc. unfold solves. rewrite HA, HB, Hf, Hg.
  change (exact_rows (A (SimpleSaddle_new alpha beta))) with (Some [[1; 0]; [0; 1]]).
  change (exact_rows (B (SimpleSaddle_new alpha beta))) with (Some [[1; 1]]).
  unfold exact_vector. cbn [mapM]. rewrite Ha, Hb, Hc.
  cbn [mbind option_bind mret option_ret].
  unfold eq_vec.
  cbv beta iota zeta delta -[Qplus Qmult Qeq].
  split.
  - intros (_ & _ & H1 & H2).
    apply Forall2_cons_1 in H1 as [Hx H1]. apply Forall2_cons_1 in H1 as [Hy _].
    apply Forall2_cons_1 in H2 as [Hs _].
    repeat split; lra.
  - intros (Hx & Hy & Hs). split; [reflexivity|]. split; [reflexivity|].
    split; repeat (constructor; [lra|]); constructor.
Qed.

Lemma saddle_unique (a b c x y l : Q) :
  x + l == a -> y + l == b -> x + y == c ->
  x == (1 # 2) * a - (1 # 2) * b + (1 # 2) * c /\
  y == - (1 # 2) * a + (1 # 2) * b + (1 # 2) * c /\
  l == (1 # 2) * (a + b) - (1 # 2) * c.
Proof. intros Hx Hy Hc. repeat split; lra. Qed.

(** Unrounded reference values are the solution, and the only one, of a
    system with the matrices of the fixture and right-hand side [(a, b; c)]. *)
Lemma unrounded_shift_solves (alpha beta g : float) (a b c : Q) (s : SimpleSaddle) :
  A s = A (SimpleSaddle_new alpha beta) ->
  B s = B (SimpleSaddle_new alpha beta) ->
  rhs s = [alpha; beta] ->
  dualrhs s = [g] ->
  value alpha = Some a -> value beta = Some b -> value g = Some c ->
  denote3 (truex s) (truey s) (truelambda s)
    ((1 # 2) * a - (1 # 2) * b + (1 # 2) * c)
    (- (1 # 2) * a + (1 # 2) * b + (1 # 2) * c)
    ((1 # 2) * (a + b) - (1 # 2) * c) ->
  exists x y l : Q,
    value (truex s) = Some x /\ value (truey s) = Some y /\
    value (truelambda s) = Some l /\
    solves s [x; y] [l] /\
    forall x' y' l' : Q,
      solves s [x'; y'] [l'] -> x' == x /\ y' == y /\ l' == l.
Proof.
  intros HA HB Hf Hg Ha Hb Hc ((x & Hx & Ex) & (y & Hy & Ey) & (l & Hl & El)).
  exists x, y, l. split; [done|]. split; [done|]. split; [done|]. split.
  - apply (solves_components alpha beta g a b c); try done. repeat split; lra.
  - intros x' y' l' Hs.
    apply (solves_components alpha beta g a b c) in Hs as (Hx' & Hy' & Hc'); try done.
    destruct (saddle_unique a b c x' y' l' Hx' Hy' Hc') as (E1 & E2 & E3).
    repeat split; lra.
Qed.

(** C7, amended. Let the doubles [alpha], [beta] and [g] denote [a], [b] and
    [c]. When the binary64 evaluation of [0.5 alpha - 0.5 beta],
    [-0.5 alpha + 0.5 beta] and [0.5 (alpha + beta)] is free of rounding, the
    stored [truex], [truey] and [truelambda] denote the solution, and the
    only one, of the saddle-point system with right-hand side
    [(alpha, beta; 0)]. [SetConstraintRHS] with [g], called on the freshly
    constructed object, adds [0.5 g] to both primal values and takes [0.5 g]
    off the multiplier in binary64; when that is free of rounding too, the
    new values denote the solution, and the only one, of the system with
    constraint right-hand side [g]. *)
Theorem reference_solution_exact (alpha beta g : float) (a b c : Q) :
  value alpha = Some a -> value beta = Some b -> value g = Some c ->
  let s := SimpleSaddle_new alpha beta in
  (denote3 (0.5 * alpha - 0.5 * beta)%float
           (-0.5 * alpha + 0.5 * beta)%float
           (0.5 * (alpha + beta))%float
           ((1 # 2) * a - (1 # 2) * b)
           (- (1 # 2) * a + (1 # 2) * b)
           ((1 # 2) * (a + b)) ->
     exists x y l : Q,
       value (truex s) = Some x /\ value (truey s) = Some y /\
       value (truelambda s) = Some l /\
       solves s [x; y] [l] /\
       forall x' y' l' : Q,
         solves s [x'; y'] [l'] -> x' == x /\ y' == y /\ l' == l) /\
  exists s',
    SetConstraintRHS [g] s = Some s' /\
    dualrhs s' = [g] /\
    truex s' = (truex s + 0.5 * g)%float /\
    truey s' = (truey s + 0.5 * g)%float /\
    truelambda s' = (truelambda s - 0.5 * g)%float /\
    (denote3 (0.5 * alpha - 0.5 * beta + 0.5 * g)%float
             (-0.5 * alpha + 0.5 * beta + 0.5 * g)%float
             (0.5 * (alpha + beta) - 0.5 * g)%float
             ((1 # 2) * a - (1 # 2) * b + (1 # 2) * c)
             (- (1 # 2) * a + (1 # 2) * b + (1 # 2) * c)
             ((1 # 2) * (a + b) - (1 # 2) * c) ->
       exists x y l : Q,
         value (truex s') = Some x /\ value (truey s') = Some y /\
         value (truelambda s') = Some l /\
         solves s' [x; y] [l] /\
         forall x' y' l' : Q,
           solves s' [x'; y'] [l'] -> x' == x /\ y' == y /\ l' == l).
Proof.
  intros Ha Hb Hc s. split.
  - intros ((x & Hx & Ex) & (y & Hy & Ey) & (l & Hl & El)).
    apply (unrounded_shift_solves alpha beta 0%float a b 0); try done.
    split; [|split].
    + exists x. split; [exact Hx|lra].
    + exists y. split; [exact Hy|lra].
    + exists l. split; [exact Hl|lra].
  - eexists. split; [reflexivity|].
    do 4 (split; [reflexivity|]).
    intros Hexact.
    apply (unrounded_shift_solves alpha beta g a b c); try done.
Qed.

(** The system of the test, [SimpleSaddle problem(4.0, -2.0)], and the
    constraint right-hand side 1.0 that the test sets: nothing rounds. *)
Lemma reference_solution_exact_witness :
  let s := SimpleSaddle_new 4 (-2) in
  reference_solves s /\
  exists s', SetConstraintRHS [1%float] s = Some s' /\ reference_solves s'.
Proof.
  pose proof (reference_solution_exact 4 (-2) 1 4 (-2) 1 eq_refl eq_refl eq_refl)
    as [Hnew (s' & Hset & _ & _ & _ & _ & Hshift)].
  split.
  - destruct Hnew as (x & y & l & Hx & Hy & Hl & Hs & _).
    + repeat split; eexists; (split; [vm_compute; reflexivity|reflexivity]).
    + by exists x, y, l.
  - exists s'. split; [done|].
    destruct Hshift as (x & y & l & Hx & Hy & Hl & Hs & _).
    + injection Hset as <-.
      repeat split; eexists; (split; [vm_compute; reflexivity|reflexivity]).
    + by exists x, y, l.
Defined.

(** What the test's object stores, before and after [SetConstraintRHS]. *)
Example problem_solution :
  let s := SimpleSaddle_new 4 (-2) in
  (truex s, truey s, truelambda s) = (3, -3, 1)%float /\
  (fun s' => (truex s', truey s', truelambda s')) <$> SetConstraintRHS [1%float] s
  = Some (3.5, -2.5, 0.5)%float.
Proof. split; reflexivity. Qed.

(** What [SimpleSaddle(1e16, 1.0)] stores: [0.5e16 - 0.5] and
    [0.5 (1e16 + 1)] both round to [5e15]. *)
Example rounded_values :
  let s := SimpleSaddle_new 1e16 1 in
  (truex s, truey s, truelambda s) = (5e15, -5e15, 5e15)%float.
Proof. reflexivity. Qed.

(** C7, as stated, fails: for [alpha = 1e16] and [beta = 1] the stored
    values do not solve the system ([truey + truelambda] is 0, not 1). *)
Lemma reference_solution_rounded :
  ~ reference_solves (SimpleSaddle_new 1e16 1).
Proof.
  intros (x & y & l & Hx & Hy & Hl & Hs).
  apply (solves_components 1e16 1 0 (10000000000000000 # 1) 1 0) in Hs
    as (_ & Hsum & _); try reflexivity.
  vm_compute in Hx, Hy, Hl.
  injection Hx as <-. injection Hy as <-. injection Hl as <-.
  vm_compute in Hsum. discriminate Hsum.
Qed.



End Saddle.
